(** * libusual: interruption-safe I/O wrappers and socket setup helpers

    A shallow embedding of [usual/safeio.c] and [usual/socket.c].

    The C functions are thin layers over POSIX system calls.  The calls
    themselves belong to the operating system, so they are modelled as an
    environment: the wrapped call of [safeio.c] draws its outcome from an
    oracle (any sequence of results can be fed to a wrapper), and the
    descriptor calls of [socket.c] act on a table of open descriptors in
    which any call can be made to fail.  The [goto loop] of the C code is
    a loop with an explicit bound on the number of rounds; running out of
    rounds is reported as [None], which is never a result of the C code. *)

From Stdlib Require Import ZArith List String Ascii Bool Lia DecimalString.
From stdpp Require Import gmap.
Import ListNotations.

Local Open Scope Z_scope.

(** ** Constants of the system headers

    [errno.h], [fcntl.h] and [sys/socket.h] differ between systems, and
    the sources select code with [#ifdef SO_NOSIGPIPE] and [#ifndef WIN32].
    The embedding is parametrised by them; only the facts that every
    system guarantees (distinct error numbers, distinct address families,
    a non-empty [O_NONBLOCK] and [FD_CLOEXEC] that [fcntl] can set) are
    required. *)

Class Platform : Type := {
  EINTR : Z;
  EMSGSIZE : Z;
  EINPROGRESS : Z;
  AF_UNIX : Z;
  AF_INET : Z;
  O_NONBLOCK : Z;
  FD_CLOEXEC : Z;
  (** the file status flags that [fcntl(F_SETFL)] may change *)
  SETFL_MASK : Z;
  (** is the macro [WIN32] defined *)
  WIN32 : bool;
  (** is the macro [SO_NOSIGPIPE] defined *)
  HAVE_SO_NOSIGPIPE : bool;
  EINTR_neq_EMSGSIZE : EINTR <> EMSGSIZE;
  EINTR_neq_EINPROGRESS : EINTR <> EINPROGRESS;
  AF_INET_neq_AF_UNIX : AF_INET <> AF_UNIX;
  O_NONBLOCK_pos : 0 < O_NONBLOCK;
  FD_CLOEXEC_pos : 0 < FD_CLOEXEC;
  O_NONBLOCK_settable : Z.land O_NONBLOCK SETFL_MASK = O_NONBLOCK
}.

(** Linux (asm-generic headers): no [SO_NOSIGPIPE]. *)
Definition linux : Platform.
Proof.
  refine {| EINTR := 4; EMSGSIZE := 90; EINPROGRESS := 115;
            AF_UNIX := 1; AF_INET := 2;
            O_NONBLOCK := 2048; FD_CLOEXEC := 1; SETFL_MASK := 289792;
            WIN32 := false; HAVE_SO_NOSIGPIPE := false |};
    abstract (vm_compute; congruence).
Defined.

(** macOS, the system the [EMSGSIZE] workaround is written for: it has
    [SO_NOSIGPIPE]. *)
Definition darwin : Platform.
Proof.
  refine {| EINTR := 4; EMSGSIZE := 40; EINPROGRESS := 36;
            AF_UNIX := 1; AF_INET := 2;
            O_NONBLOCK := 4; FD_CLOEXEC := 1; SETFL_MASK := 76;
            WIN32 := false; HAVE_SO_NOSIGPIPE := true |};
    abstract (vm_compute; congruence).
Defined.

(** C [int]: the value of a wider integer converted to a 32-bit [int]. *)
Definition to_int (x : Z) : Z := (x + 2 ^ 31) mod 2 ^ 32 - 2 ^ 31.

(** ** safeio.c *)

Module SafeIO.

(** *** Data *)

(** [struct sockaddr], seen through the three struct types the code casts
    it to.  [sa_family] is common to them; [sin_port] (two bytes) and
    [sin_addr] (four bytes), in network byte order, are the view of
    [struct sockaddr_in]; [sun_path] holds the bytes of the [char] array
    of [struct sockaddr_un]. *)
Record sockaddr := mkSockaddr {
  sa_family : Z;
  sin_port : Byte.byte * Byte.byte;
  sin_addr : Byte.byte * Byte.byte * Byte.byte * Byte.byte;
  sun_path : list ascii
}.

(** The fields of [struct msghdr] that [safe_sendmsg] reads. *)
Record msghdr := mkMsghdr {
  iov0_len : Z;         (* msg_iov[0].iov_len *)
  msg_controllen : Z
}.

Record timeval := mkTimeval { tv_sec : Z; tv_usec : Z }.

(** One invocation of a system call, with its scalar operands.  The
    buffers handed to [read], [write], [recv] and [send] are passed to the
    system call untouched and are not part of the model. *)
Inductive call :=
| Read (fd len : Z)
| Write (fd len : Z)
| Recv (fd len flags : Z)
| Send (fd len flags : Z)
| Close (fd : Z)
| Closesocket (fd : Z)
| Recvmsg (fd flags : Z)
| Sendmsg (fd : Z) (msg : msghdr) (flags : Z)
| Connect (fd : Z) (sa : sockaddr)
| Accept (fd : Z).

(** What a system call answers: its return value, the value it stores in
    [errno] when it fails (a successful call leaves [errno] alone), and,
    for [accept], the peer address it writes to the caller's buffer. *)
Record outcome := mkOutcome {
  out_res : Z;
  out_errno : Z;
  out_addr : option sockaddr
}.

(** Levels of [usual/logging.h] used by the wrappers. *)
Inductive log_level := LogNoise | LogDebug | LogWarning.

(** An argument of a log call; [ArgStrerror e] stands for the text
    [strerror(e)]. *)
Inductive log_arg :=
| ArgInt (n : Z)
| ArgStr (s : list ascii)
| ArgStrerror (e : Z).

Record log_entry := mkLog {
  log_lvl : log_level;
  log_fmt : string;
  log_args : list log_arg
}.

(** The state a wrapper runs in.
    - [cf_verbose]: the process-wide verbosity of the logging module;
    - [errno];
    - [sa2str_buf]: the [static char buf[256]] of [sa2str];
    - [sys_out k]: the outcome of the [k]-th invocation of a wrapped
      system call, and [sys_trace] the invocations made so far (oldest
      first);
    - [select_out k]: the outcome of the [k]-th [select], and [sleeps]
      the timeouts slept so far;
    - [log]: the lines handed to the logging module (oldest first);
    - [inet_ntoa_buf]: the string held by the static buffer in which the
      [inet_ntoa] of the C library returns its result. *)
Record world := mkWorld {
  cf_verbose : Z;
  errno : Z;
  sa2str_buf : list ascii;
  sys_out : nat -> outcome;
  sys_trace : list call;
  select_out : nat -> outcome;
  sleeps : list timeval;
  log : list log_entry;
  inet_ntoa_buf : list ascii
}.

Definition set_errno (e : Z) (w : world) : world :=
  mkWorld (cf_verbose w) e (sa2str_buf w) (sys_out w) (sys_trace w)
          (select_out w) (sleeps w) (log w) (inet_ntoa_buf w).

Definition set_sa2str_buf (b : list ascii) (w : world) : world :=
  mkWorld (cf_verbose w) (errno w) b (sys_out w) (sys_trace w)
          (select_out w) (sleeps w) (log w) (inet_ntoa_buf w).

Definition set_inet_ntoa_buf (b : list ascii) (w : world) : world :=
  mkWorld (cf_verbose w) (errno w) (sa2str_buf w) (sys_out w) (sys_trace w)
          (select_out w) (sleeps w) (log w) b.

Definition add_call (c : call) (w : world) : world :=
  mkWorld (cf_verbose w) (errno w) (sa2str_buf w) (sys_out w)
          (sys_trace w ++ [c]) (select_out w) (sleeps w) (log w) (inet_ntoa_buf w).

Definition add_sleep (tv : timeval) (w : world) : world :=
  mkWorld (cf_verbose w) (errno w) (sa2str_buf w) (sys_out w) (sys_trace w)
          (select_out w) (sleeps w ++ [tv]) (log w) (inet_ntoa_buf w).

Definition add_log (l : log_entry) (w : world) : world :=
  mkWorld (cf_verbose w) (errno w) (sa2str_buf w) (sys_out w) (sys_trace w)
          (select_out w) (sleeps w) (log w ++ [l]) (inet_ntoa_buf w).

(** The outcome the next wrapped system call will have. *)
Definition next_out (w : world) : outcome :=
  sys_out w (List.length (sys_trace w)).

(** *** Programs *)

(** A program transforms the world and returns a value, or runs out of
    loop rounds. *)
Definition prog (A : Type) : Type := world -> option (A * world).

Definition ret {A} (a : A) : prog A := fun w => Some (a, w).

Definition bind {A B} (m : prog A) (k : A -> prog B) : prog B :=
  fun w => match m w with
           | Some (a, w') => k a w'
           | None => None
           end.

Declare Scope prog_scope.
Delimit Scope prog_scope with prog.
Bind Scope prog_scope with prog.
Notation "x <- m ;; k" := (bind m (fun x => k))
  (at level 100, m at next level, right associativity) : prog_scope.
Notation "m ;; k" := (bind m (fun _ => k))
  (at level 100, right associativity) : prog_scope.
Local Open Scope prog_scope.

(** [label: body; goto label]: [body] either jumps back ([continue], with
    the values of the local variables that live across the jump) or
    leaves the loop ([break]). *)
Definition continue {S A} (s : S) : prog (S + A) := ret (inl s).
Definition break {S A} (a : A) : prog (S + A) := ret (inr a).

Fixpoint goto_loop {S A} (fuel : nat) (body : S -> prog (S + A)) (s : S)
  : prog A :=
  fun w =>
    match fuel with
    | O => None
    | Datatypes.S fuel' =>
        match body s w with
        | Some (inl s', w') => goto_loop fuel' body s' w'
        | Some (inr a, w') => Some (a, w')
        | None => None
        end
    end.

Definition get_errno : prog Z := fun w => Some (errno w, w).
Definition get_cf_verbose : prog Z := fun w => Some (cf_verbose w, w).

(** C's [a && b] and [a || b]: the right operand is evaluated only when
    the left one does not decide. *)
Definition c_and (a b : prog bool) : prog bool :=
  x <- a ;; if x then b else ret false.
Definition c_or (a b : prog bool) : prog bool :=
  x <- a ;; if x then ret true else b.

(** [errno == e] and [cf_verbose > n]. *)
Definition errno_is (e : Z) : prog bool := x <- get_errno ;; ret (x =? e).
Definition verbose_gt (n : Z) : prog bool :=
  v <- get_cf_verbose ;; ret (v >? n).

(** [strerror(errno)] as a log argument. *)
Definition strerror_errno : prog log_arg :=
  e <- get_errno ;; ret (ArgStrerror e).

(** A failed system call stores its reason in [errno]. *)
Definition store_errno (o : outcome) (w : world) : world :=
  if out_res o <? 0 then set_errno (out_errno o) w else w.

(** The world after the next wrapped system call [c]. *)
Definition sys_world (c : call) (w : world) : world :=
  add_call c (store_errno (next_out w) w).

(** Invoke the wrapped system call. *)
Definition sys (c : call) : prog Z :=
  fun w => Some (out_res (next_out w), sys_world c w).

(** [accept(fd, sa, sa_len_p)]: also gives the contents of the caller's
    address buffer after the call. *)
Definition sys_accept (fd : Z) (sa : sockaddr) : prog (Z * sockaddr) :=
  fun w => Some ((out_res (next_out w),
                  match out_addr (next_out w) with
                  | Some peer => peer
                  | None => sa
                  end),
                 sys_world (Accept fd) w).

(** [select(0, NULL, NULL, NULL, &tv)]: sleeps; the wrapper ignores its
    return value. *)
Definition select (tv : timeval) : prog Z :=
  fun w => let o := select_out w (List.length (sleeps w)) in
           Some (out_res o, add_sleep tv (store_errno o w)).

(** The logging module keeps [errno] as it finds it. *)
Definition log_at (lvl : log_level) (fmt : string) (args : list log_arg)
  : prog unit :=
  fun w => Some (tt, add_log (mkLog lvl fmt args) w).

Definition log_noise := log_at LogNoise.
Definition log_debug := log_at LogDebug.
Definition log_warning := log_at LogWarning.

(** *** Formatting into the static buffer *)

Definition NUL : ascii := Ascii.zero.

(** The characters of a C string: those before the first NUL. *)
Fixpoint c_str (s : list ascii) : list ascii :=
  match s with
  | [] => []
  | c :: s' => if Ascii.eqb c NUL then [] else c :: c_str s'
  end.

(** What [snprintf(buf, size, ...)] leaves in [buf] when the formatted
    text is [text]: at most [size - 1] characters of it, then a NUL; the
    bytes after the NUL are not touched. *)
Definition snprintf_store (buf : list ascii) (size : nat) (text : list ascii)
  : list ascii :=
  match size with
  | O => buf
  | Datatypes.S n =>
      let out := firstn n text in
      out ++ NUL :: skipn (Datatypes.S (List.length out)) buf
  end.

(** [sizeof(buf)] for [static char buf[256]]. *)
Definition sizeof_buf : nat := 256.

(** [snprintf(buf, sizeof(buf), ...)] on the static buffer of [sa2str];
    returns the length of the whole formatted text. *)
Definition snprintf_buf (text : list ascii) : prog Z :=
  fun w => Some (Z.of_nat (List.length text),
                 set_sa2str_buf
                   (snprintf_store (sa2str_buf w) sizeof_buf text) w).

Definition get_sa2str_buf : prog (list ascii) :=
  fun w => Some (sa2str_buf w, w).

(** Conversion [%d]. *)
Definition fmt_d (n : Z) : list ascii :=
  list_ascii_of_string (NilZero.string_of_int (Z.to_int n)).

Definition byte_val (b : Byte.byte) : Z := Z.of_N (Byte.to_N b).

(** [ntohs] of a port stored as two bytes in network order. *)
Definition ntohs (p : Byte.byte * Byte.byte) : Z :=
  256 * byte_val (fst p) + byte_val (snd p).

(** An IPv4 address in dotted decimal. *)
Definition dotted_decimal (a : Byte.byte * Byte.byte * Byte.byte * Byte.byte)
  : list ascii :=
  let '(a1, a2, a3, a4) := a in
  fmt_d (byte_val a1) ++ list_ascii_of_string "." ++
  fmt_d (byte_val a2) ++ list_ascii_of_string "." ++
  fmt_d (byte_val a3) ++ list_ascii_of_string "." ++
  fmt_d (byte_val a4).

(** [inet_ntoa] of the C library: it writes the dotted decimal text to
    its own static buffer, overwriting what an earlier call has left
    there, and returns that buffer. *)
Definition inet_ntoa (a : Byte.byte * Byte.byte * Byte.byte * Byte.byte)
  : prog (list ascii) :=
  fun w => Some (dotted_decimal a, set_inet_ntoa_buf (dotted_decimal a) w).

(** *** The functions of safeio.c *)

Section Wrappers.
Context {P : Platform}.

Definition safe_read (fuel : nat) (fd len : Z) : prog Z :=
  res <- goto_loop fuel (fun _ : unit =>
    res <- sys (Read fd len) ;;
    again <- c_and (ret (res <? 0)) (errno_is EINTR) ;;
    if again then continue tt else break res) tt ;;
  ret res.

Definition safe_write (fuel : nat) (fd len : Z) : prog Z :=
  res <- goto_loop fuel (fun _ : unit =>
    res <- sys (Write fd len) ;;
    again <- c_and (ret (res <? 0)) (errno_is EINTR) ;;
    if again then continue tt else break res) tt ;;
  ret res.

Definition safe_recv (fuel : nat) (fd len flags : Z) : prog Z :=
  res <- goto_loop fuel (fun _ : unit =>
    res <- sys (Recv fd len flags) ;;
    again <- c_and (ret (res <? 0)) (errno_is EINTR) ;;
    if again then continue tt else break res) tt ;;
  (if res <? 0 then
     err <- strerror_errno ;;
     log_noise "safe_recv(%d, %d) = %s" [ArgInt fd; ArgInt len; err]
   else
     noisy <- verbose_gt 2 ;;
     if noisy then
       log_noise "safe_recv(%d, %d) = %d" [ArgInt fd; ArgInt len; ArgInt res]
     else ret tt) ;;
  ret res.

Definition safe_send (fuel : nat) (fd len flags : Z) : prog Z :=
  res <- goto_loop fuel (fun _ : unit =>
    res <- sys (Send fd len flags) ;;
    again <- c_and (ret (res <? 0)) (errno_is EINTR) ;;
    if again then continue tt else break res) tt ;;
  (if res <? 0 then
     err <- strerror_errno ;;
     log_noise "safe_send(%d, %d) = %s" [ArgInt fd; ArgInt len; err]
   else
     noisy <- verbose_gt 2 ;;
     if noisy then
       log_noise "safe_send(%d, %d) = %d" [ArgInt fd; ArgInt len; ArgInt res]
     else ret tt) ;;
  ret res.

(** The label is above the [#ifndef WIN32], so on WIN32 the [log_debug]
    line is repeated with every round. *)
Definition safe_close (fuel : nat) (fd : Z) : prog Z :=
  res <- goto_loop fuel (fun _ : unit =>
    res <- (if WIN32 then
              log_debug "closesocket(%d)" [ArgInt fd] ;;
              sys (Closesocket fd)
            else sys (Close fd)) ;;
    again <- c_and (ret (res <? 0)) (errno_is EINTR) ;;
    if again then continue tt else break res) tt ;;
  ret res.

Definition safe_recvmsg (fuel : nat) (fd flags : Z) : prog Z :=
  res <- goto_loop fuel (fun _ : unit =>
    res <- sys (Recvmsg fd flags) ;;
    again <- c_and (ret (res <? 0)) (errno_is EINTR) ;;
    if again then continue tt else break res) tt ;;
  (if res <? 0 then
     err <- strerror_errno ;;
     log_warning "safe_recvmsg(%d, msg, %d) = %s"
       [ArgInt fd; ArgInt flags; err]
   else
     noisy <- verbose_gt 2 ;;
     if noisy then
       log_noise "safe_recvmsg(%d, msg, %d) = %d"
         [ArgInt fd; ArgInt flags; ArgInt res]
     else ret tt) ;;
  ret res.

(** The second [goto loop] sits inside the failure branch, so the loop
    reaches down to it; [msgerr_count] is the local that lives across
    the jumps. *)
Definition safe_sendmsg (fuel : nat) (fd : Z) (msg : msghdr) (flags : Z)
  : prog Z :=
  res <- goto_loop fuel (fun msgerr_count : Z =>
    res <- sys (Sendmsg fd msg flags) ;;
    again <- c_and (ret (res <? 0)) (errno_is EINTR) ;;
    if again then continue msgerr_count
    else if res <? 0 then
      err <- strerror_errno ;;
      log_warning "safe_sendmsg(%d, msg[%d,%d], %d) = %s"
        [ArgInt fd; ArgInt (to_int (iov0_len msg));
         ArgInt (to_int (msg_controllen msg)); ArgInt flags; err] ;;
      wait <- c_and (errno_is EMSGSIZE) (ret (msgerr_count <? 20)) ;;
      if wait then
        log_warning "trying to sleep a bit" [] ;;
        select (mkTimeval 1 0) ;;
        continue (msgerr_count + 1)
      else break res
    else
      noisy <- verbose_gt 2 ;;
      (if noisy then
         log_noise "safe_sendmsg(%d, msg, %d) = %d"
           [ArgInt fd; ArgInt flags; ArgInt res]
       else ret tt) ;;
      break res) 0 ;;
  ret res.

(** There is no [else] between the first [if] and the second: an
    [AF_INET] address goes through the first [snprintf] and then through
    the [else] branch of the second [if].  The value is the string found
    at the returned pointer. *)
Definition sa2str (sa : sockaddr) : prog (list ascii) :=
  (if sa_family sa =? AF_INET then
     ip <- inet_ntoa (sin_addr sa) ;;
     snprintf_buf (ip ++ list_ascii_of_string ":" ++
                   fmt_d (ntohs (sin_port sa))) ;;
     ret tt
   else ret tt) ;;
  (if sa_family sa =? AF_UNIX then
     snprintf_buf (list_ascii_of_string "unix:" ++ c_str (sun_path sa)) ;;
     ret tt
   else
     snprintf_buf (list_ascii_of_string "sa2str: unknown proto") ;;
     ret tt) ;;
  buf <- get_sa2str_buf ;;
  ret (c_str buf).

Definition safe_connect (fuel : nat) (fd : Z) (sa : sockaddr) : prog Z :=
  res <- goto_loop fuel (fun _ : unit =>
    res <- sys (Connect fd sa) ;;
    again <- c_and (ret (res <? 0)) (errno_is EINTR) ;;
    if again then continue tt else break res) tt ;;
  report <- c_and (ret (res <? 0))
              (c_or (x <- errno_is EINPROGRESS ;; ret (negb x))
                    (verbose_gt 2)) ;;
  (if report then
     s <- sa2str sa ;;
     err <- strerror_errno ;;
     log_noise "connect(%d, %s) = %s" [ArgInt fd; ArgStr s; err]
   else
     noisy <- verbose_gt 2 ;;
     if noisy then
       s <- sa2str sa ;;
       log_noise "connect(%d, %s) = %d" [ArgInt fd; ArgStr s; ArgInt res]
     else ret tt) ;;
  ret res.

(** [sa] is the caller's address buffer; its final contents are returned
    next to the result. *)
Definition safe_accept (fuel : nat) (fd : Z) (sa : sockaddr)
  : prog (Z * sockaddr) :=
  r <- goto_loop fuel (fun sa : sockaddr =>
    r <- sys_accept fd sa ;;
    again <- c_and (ret (fst r <? 0)) (errno_is EINTR) ;;
    if again then continue (snd r) else break r) sa ;;
  (if fst r <? 0 then
     err <- strerror_errno ;;
     log_noise "safe_accept(%d) = %s" [ArgInt fd; err]
   else
     noisy <- verbose_gt 2 ;;
     if noisy then
       s <- sa2str (snd r) ;;
       log_noise "safe_accept(%d) = %d (%s)"
         [ArgInt fd; ArgInt (fst r); ArgStr s]
     else ret tt) ;;
  ret r.

End Wrappers.

(** *** Vocabulary of the statements *)

Section Vocabulary.
Context {P : Platform}.

(** The outcome is a failure with reason [EINTR] (with [EMSGSIZE]). *)
Definition is_eintr (o : outcome) : bool :=
  (out_res o <? 0) && (out_errno o =? EINTR).
Definition is_emsgsize (o : outcome) : bool :=
  (out_res o <? 0) && (out_errno o =? EMSGSIZE).

(** The outcome of the [i]-th wrapped system call from now on. *)
Definition coming (w : world) (i : nat) : outcome :=
  sys_out w (i + List.length (sys_trace w)).


(** The next [n] outcomes are [EINTR] failures and the one after them is
    not. *)
Definition eintr_prefix (w : world) (n : nat) : bool :=
  forallb (fun i => is_eintr (coming w i)) (seq 0 n) &&
  negb (is_eintr (coming w n)).

(** The number of [EMSGSIZE] failures among the first [n] outcomes of a
    sequence. *)
Fixpoint emsg_count (o : nat -> outcome) (n : nat) : nat :=
  match n with
  | O => O
  | Datatypes.S n' =>
      ((if is_emsgsize (o O) then 1 else 0) +
       emsg_count (fun i => o (Datatypes.S i)) n')%nat
  end.

(** [safe_sendmsg] calls [sendmsg] again after outcome [i] of the
    sequence: it is an [EINTR] failure, or an [EMSGSIZE] failure with
    fewer than 20 such failures before it. *)
Definition sendmsg_retried (o : nat -> outcome) (i : nat) : bool :=
  is_eintr (o i) ||
  (is_emsgsize (o i) && (emsg_count o i <? 20)%nat).

(** The next [n] outcomes are [EMSGSIZE] failures. *)
Definition emsgsize_prefix (w : world) (n : nat) : bool :=
  forallb (fun i => is_emsgsize (coming w i)) (seq 0 n).

(** The first [n] outcomes make [safe_sendmsg] call again and the one
    after them does not. *)
Definition sendmsg_prefix (w : world) (n : nat) : bool :=
  forallb (sendmsg_retried (coming w)) (seq 0 n) &&
  negb (sendmsg_retried (coming w) n).

(** The nine wrappers with their operands. *)
Inductive wrapper :=
| W_read (fd len : Z)
| W_write (fd len : Z)
| W_recv (fd len flags : Z)
| W_send (fd len flags : Z)
| W_close (fd : Z)
| W_connect (fd : Z) (sa : sockaddr)
| W_accept (fd : Z) (sa : sockaddr)
| W_recvmsg (fd flags : Z)
| W_sendmsg (fd : Z) (msg : msghdr) (flags : Z).

(** A call of a wrapper and the value it returns. *)
Definition run (x : wrapper) (fuel : nat) : prog Z :=
  match x with
  | W_read fd len => safe_read fuel fd len
  | W_write fd len => safe_write fuel fd len
  | W_recv fd len flags => safe_recv fuel fd len flags
  | W_send fd len flags => safe_send fuel fd len flags
  | W_close fd => safe_close fuel fd
  | W_connect fd sa => safe_connect fuel fd sa
  | W_accept fd sa => r <- safe_accept fuel fd sa ;; ret (fst r)
  | W_recvmsg fd flags => safe_recvmsg fuel fd flags
  | W_sendmsg fd msg flags => safe_sendmsg fuel fd msg flags
  end.

(** The system call a wrapper invokes. *)
Definition wrapped (x : wrapper) : call :=
  match x with
  | W_read fd len => Read fd len
  | W_write fd len => Write fd len
  | W_recv fd len flags => Recv fd len flags
  | W_send fd len flags => Send fd len flags
  | W_close fd => if WIN32 then Closesocket fd else Close fd
  | W_connect fd sa => Connect fd sa
  | W_accept fd sa => Accept fd
  | W_recvmsg fd flags => Recvmsg fd flags
  | W_sendmsg fd msg flags => Sendmsg fd msg flags
  end.

Definition is_sendmsg (x : wrapper) : bool :=
  match x with W_sendmsg _ _ _ => true | _ => false end.

(** What [sa2str] leaves in its static buffer. *)
Definition sa2str_store (sa : sockaddr) (buf : list ascii) : list ascii :=
  let buf1 :=
    if sa_family sa =? AF_INET then
      snprintf_store buf sizeof_buf
        (dotted_decimal (sin_addr sa) ++ list_ascii_of_string ":" ++
         fmt_d (ntohs (sin_port sa)))
    else buf in
  if sa_family sa =? AF_UNIX then
    snprintf_store buf1 sizeof_buf
      (list_ascii_of_string "unix:" ++ c_str (sun_path sa))
  else
    snprintf_store buf1 sizeof_buf
      (list_ascii_of_string "sa2str: unknown proto").

(** The text of the last [snprintf] of [sa2str]. *)
Definition sa2str_text (sa : sockaddr) : list ascii :=
  if sa_family sa =? AF_UNIX then
    list_ascii_of_string "unix:" ++ c_str (sun_path sa)
  else list_ascii_of_string "sa2str: unknown proto".

(** The text of the first [snprintf] of [sa2str], the rendering of an
    [AF_INET] address as ["<ipv4>:<port>"]. *)
Definition ipv4_text (sa : sockaddr) : list ascii :=
  dotted_decimal (sin_addr sa) ++ list_ascii_of_string ":" ++
  fmt_d (ntohs (sin_port sa)).


(** A wrapper that hides [EINTR] and nothing else: after [n]
    [EINTR] failures and a different outcome, the wrapper has invoked the
    system call [n + 1] times and returns the result of the last
    invocation; if that is a failure, [errno] holds its reason, which is
    not [EINTR]. *)
Definition returns_first_non_eintr (x : wrapper) : Prop :=
  forall (w : world) (n fuel : nat),
    eintr_prefix w n = true -> (n < fuel)%nat ->
    exists w',
      run x fuel w = Some (out_res (coming w n), w') /\
      sys_trace w' = sys_trace w ++ repeat (wrapped x) (Datatypes.S n) /\
      (out_res (coming w n) < 0 ->
       errno w' = out_errno (coming w n) /\ errno w' <> EINTR).

(** The same for [safe_sendmsg], whose last invocation is the first one
    that is neither an [EINTR] failure nor one of the first 20 [EMSGSIZE]
    failures. *)
Definition sendmsg_returns_first_final (fd : Z) (msg : msghdr) (flags : Z)
  : Prop :=
  forall (w : world) (n fuel : nat),
    sendmsg_prefix w n = true -> (n < fuel)%nat ->
    exists w',
      safe_sendmsg fuel fd msg flags w = Some (out_res (coming w n), w') /\
      sys_trace w' =
        sys_trace w ++ repeat (Sendmsg fd msg flags) (Datatypes.S n) /\
      (out_res (coming w n) < 0 ->
       errno w' = out_errno (coming w n) /\ errno w' <> EINTR).

(** The generalisation of [sendmsg_retried] to a call that has already
    counted [c0] [EMSGSIZE] failures. *)
Definition retried_at (c0 : nat) (o : nat -> outcome) (i : nat) : bool :=
  is_eintr (o i) ||
  (is_emsgsize (o i) && (c0 + emsg_count o i <? 20)%nat).

(** The two warnings of [safe_sendmsg]. *)
Definition sendmsg_failure_line (fd : Z) (msg : msghdr) (flags e : Z)
  : log_entry :=
  mkLog LogWarning "safe_sendmsg(%d, msg[%d,%d], %d) = %s"
    [ArgInt fd; ArgInt (to_int (iov0_len msg));
     ArgInt (to_int (msg_controllen msg)); ArgInt flags; ArgStrerror e].

Definition sleep_line : log_entry :=
  mkLog LogWarning "trying to sleep a bit" [].

(** The body of the loop of [safe_sendmsg]. *)
Definition sendmsg_body (fd : Z) (msg : msghdr) (flags : Z)
  : Z -> prog (Z + Z) :=
  fun msgerr_count : Z =>
    res <- sys (Sendmsg fd msg flags) ;;
    again <- c_and (ret (res <? 0)) (errno_is EINTR) ;;
    if again then continue msgerr_count
    else if res <? 0 then
      err <- strerror_errno ;;
      log_warning "safe_sendmsg(%d, msg[%d,%d], %d) = %s"
        [ArgInt fd; ArgInt (to_int (iov0_len msg));
         ArgInt (to_int (msg_controllen msg)); ArgInt flags; err] ;;
      wait <- c_and (errno_is EMSGSIZE) (ret (msgerr_count <? 20)) ;;
      if wait then
        log_warning "trying to sleep a bit" [] ;;
        select (mkTimeval 1 0) ;;
        continue (msgerr_count + 1)
      else break res
    else
      noisy <- verbose_gt 2 ;;
      (if noisy then
         log_noise "safe_sendmsg(%d, msg, %d) = %d"
           [ArgInt fd; ArgInt flags; ArgInt res]
       else ret tt) ;;
      break res.

(** The world after a round of that loop that ends in the sleep. *)
Definition emsg_round (fd : Z) (msg : msghdr) (flags : Z) (w : world)
  : world :=
  let w1 := add_log (sendmsg_failure_line fd msg flags
                       (out_errno (next_out w)))
                    (sys_world (Sendmsg fd msg flags) w) in
  let w2 := add_log sleep_line w1 in
  add_sleep (mkTimeval 1 0)
    (store_errno (select_out w2 (List.length (sleeps w2))) w2).

(** What [inet_ntoa] leaves in its static buffer when [sa2str] renders
    [sa]: it is called for an [AF_INET] address only. *)
Definition inet_ntoa_store (sa : sockaddr) (buf : list ascii) : list ascii :=
  if sa_family sa =? AF_INET then dotted_decimal (sin_addr sa) else buf.





(** [errno] after a system call that answered with [o], when it was [e]
    before. *)
Definition errno_after (o : outcome) (e : Z) : Z :=
  if out_res o <? 0 then out_errno o else e.

(** [errno] after [n] [EINTR] failures and the outcome that follows
    them. *)
Definition errno_left (w : world) (n : nat) : Z :=
  errno_after (coming w n)
    (match n with O => errno w | Datatypes.S _ => EINTR end).

(** [n] rounds of a retry loop, each of which hands the lines [pre] to the
    logging module and invokes [c], have led from [w] to [w'] and left
    [e] in [errno]. *)
Definition calls_made (c : call) (pre : list log_entry) (n : nat) (e : Z)
  (w w' : world) : Prop :=
  cf_verbose w' = cf_verbose w /\ sa2str_buf w' = sa2str_buf w /\
  sys_out w' = sys_out w /\ select_out w' = select_out w /\
  sleeps w' = sleeps w /\
  log w' = log w ++ concat (repeat pre n) /\
  sys_trace w' = sys_trace w ++ repeat c n /\
  errno w' = e.

(** The line [safe_close] logs before each call on WIN32. *)
Definition close_lines (fd : Z) : list log_entry :=
  if WIN32 then [mkLog LogDebug "closesocket(%d)" [ArgInt fd]] else [].

(** What a wrapper logs in each round of its loop, before the call. *)
Definition round_lines (x : wrapper) : list log_entry :=
  match x with W_close fd => close_lines fd | _ => [] end.

(** The caller's address buffer after [accept] has answered with the
    first [n] outcomes of a sequence: the address written last, or [sa]
    if none was written. *)
Fixpoint accept_writes (o : nat -> outcome) (n : nat) (sa : sockaddr)
  : sockaddr :=
  match n with
  | O => sa
  | Datatypes.S n' =>
      match out_addr (o n') with
      | Some p => p
      | None => accept_writes o n' sa
      end
  end.

(** The wrappers with no code after their loop. *)
Definition returns_at_once (x : wrapper) : bool :=
  match x with W_read _ _ | W_write _ _ | W_close _ => true | _ => false end.

(** The lines [safe_sendmsg] logs for the first [n] outcomes of a
    sequence when each of them makes it call again: nothing for an [EINTR]
    failure, the failure and the announcement of the sleep for an
    [EMSGSIZE] failure. *)
Fixpoint sendmsg_retry_lines (fd : Z) (msg : msghdr) (flags : Z)
  (o : nat -> outcome) (n : nat) : list log_entry :=
  match n with
  | O => []
  | Datatypes.S n' =>
      (if is_emsgsize (o O)
       then [sendmsg_failure_line fd msg flags EMSGSIZE; sleep_line]
       else []) ++
      sendmsg_retry_lines fd msg flags (fun i => o (Datatypes.S i)) n'
  end.

(** The line [safe_sendmsg] logs for the outcome it returns, with
    verbosity [v]. *)
Definition sendmsg_final_lines (fd : Z) (msg : msghdr) (flags v : Z)
  (o : outcome) : list log_entry :=
  if out_res o <? 0 then [sendmsg_failure_line fd msg flags (out_errno o)]
  else if v >? 2 then
    [mkLog LogNoise "safe_sendmsg(%d, msg, %d) = %d"
       [ArgInt fd; ArgInt flags; ArgInt (out_res o)]]
  else [].

End Vocabulary.

(** *** Vocabulary of the proofs *)

(** The local state and the world after [n] rounds of a loop whose round
    moves them by [step]. *)
Fixpoint rounds {S} (step : S -> world -> S * world) (n : nat) (s : S)
  (w : world) : S * world :=
  match n with
  | O => (s, w)
  | Datatypes.S n' => rounds step n' (fst (step s w)) (snd (step s w))
  end.

(** Every run of [m] moves the world along [R]. *)
Definition keeps (R : world -> world -> Prop) {A} (m : prog A) : Prop :=
  forall w a w', m w = Some (a, w') -> R w w'.

(** [m] has no loop: it returns from every world. *)
Definition total {A} (m : prog A) : Prop :=
  forall w, exists a w', m w = Some (a, w').

(** Whenever [m] returns, it returns [v]. *)
Definition yields {A} (v : A) (m : prog A) : Prop :=
  forall w b w', m w = Some (b, w') -> b = v.

(** What the code after the loop of a wrapper may change: the log and the
    static buffer only. *)
Definition only_logs (w w' : world) : Prop :=
  cf_verbose w' = cf_verbose w /\ errno w' = errno w /\
  sys_out w' = sys_out w /\ sys_trace w' = sys_trace w /\
  select_out w' = select_out w /\ sleeps w' = sleeps w /\
  exists l, log w' = log w ++ l.

(** What a wrapped system call leaves as it is. *)
Definition only_sys (w w' : world) : Prop :=
  cf_verbose w' = cf_verbose w /\ sa2str_buf w' = sa2str_buf w /\
  sys_out w' = sys_out w /\ select_out w' = select_out w /\
  sleeps w' = sleeps w /\ log w' = log w.

(** The caller's address buffer after [accept]. *)
Definition peer (sa : sockaddr) (w : world) : sockaddr :=
  match out_addr (next_out w) with
  | Some p => p
  | None => sa
  end.




Definition same_cf_verbose (w w' : world) : Prop :=
  cf_verbose w' = cf_verbose w.

Definition same_sa2str_buf (w w' : world) : Prop :=
  sa2str_buf w' = sa2str_buf w.

Definition same_inet_ntoa_buf (w w' : world) : Prop :=
  inet_ntoa_buf w' = inet_ntoa_buf w.




(** The address 192.0.2.1, port 443, of family [AF_INET] on Linux and
    macOS. *)
Definition example_ipv4 : sockaddr :=
  mkSockaddr 2 (Byte.x01, Byte.xbb) (Byte.xc0, Byte.x00, Byte.x02, Byte.x01)
             [].

(** The address [/tmp/sock] of family [AF_UNIX]. *)
Definition example_unix : sockaddr :=
  mkSockaddr 1 (Byte.x00, Byte.x00) (Byte.x00, Byte.x00, Byte.x00, Byte.x00)
             (list_ascii_of_string "/tmp/sock").

(** A world for examples: verbosity [v], a zeroed static buffer, an empty
    string in the buffer of [inet_ntoa], nothing done yet; the wrapped system call answers with the outcomes of
    [script] and then with [rest] for ever; [select] returns 0. *)
Definition script_world (v : Z) (script : list outcome) (rest : outcome)
  : world :=
  mkWorld v 0 (repeat NUL sizeof_buf) (fun k => nth k script rest) []
          (fun _ => mkOutcome 0 0 None) [] [] [].

Definition failure (e : Z) : outcome := mkOutcome (-1) e None.
Definition success (r : Z) : outcome := mkOutcome r 0 None.

End SafeIO.

(** ** socket.c *)

Module Socket.

(** *** The descriptor table *)

(** What the kernel keeps for an open descriptor: the descriptor flags
    ([F_GETFD]/[F_SETFD]), the file status flags ([F_GETFL]/[F_SETFL])
    and the value of the socket option [SO_NOSIGPIPE]. *)
Record fdesc := mkFdesc {
  fd_flags : Z;
  fl_flags : Z;
  so_nosigpipe : Z
}.

(** The system calls of socket.c with their operands. *)
Inductive call :=
| F_SETFD (fd arg : Z)
| F_GETFL (fd arg : Z)
| F_SETFL (fd arg : Z)
| SO_NOSIGPIPE (fd val : Z).

(** - [fds]: the open descriptors;
    - [fault k]: the [k]-th system call is made to fail (it then changes
      nothing); a call on a descriptor that is not open fails as well;
    - [trace]: the calls made so far with their return values, oldest
      first.
    The helpers never read [errno], which is left out. *)
Record kernel := mkKernel {
  fds : gmap Z fdesc;
  fault : nat -> bool;
  trace : list (call * Z)
}.

Definition kprog (A : Type) : Type := kernel -> A * kernel.

Definition kret {A} (a : A) : kprog A := fun k => (a, k).

Definition kbind {A B} (m : kprog A) (f : A -> kprog B) : kprog B :=
  fun k => let (a, k') := m k in f a k'.

Declare Scope kprog_scope.
Delimit Scope kprog_scope with kprog.
Bind Scope kprog_scope with kprog.
Notation "x <- m ;; k" := (kbind m (fun x => k))
  (at level 100, m at next level, right associativity) : kprog_scope.
Local Open Scope kprog_scope.

(** A system call on [fd] that, when it goes through, turns the
    descriptor [d] into [upd d] and returns [res d]. *)
Definition syscall (c : call) (fd : Z) (upd : fdesc -> fdesc)
  (res : fdesc -> Z) : kprog Z :=
  fun k =>
    match fds k !! fd with
    | Some d =>
        if fault k (List.length (trace k))
        then (-1, mkKernel (fds k) (fault k) (trace k ++ [(c, -1)]))
        else (res d, mkKernel (<[fd := upd d]> (fds k)) (fault k)
                              (trace k ++ [(c, res d)]))
    | None => (-1, mkKernel (fds k) (fault k) (trace k ++ [(c, -1)]))
    end.

Section Helpers.
Context {P : Platform}.

(** [fcntl(fd, F_SETFD, arg)]: stores the descriptor flags. *)
Definition fcntl_setfd (fd arg : Z) : kprog Z :=
  syscall (F_SETFD fd arg) fd
    (fun d => mkFdesc arg (fl_flags d) (so_nosigpipe d)) (fun _ => 0).

(** [fcntl(fd, F_GETFL, arg)]: returns the file status flags. *)
Definition fcntl_getfl (fd arg : Z) : kprog Z :=
  syscall (F_GETFL fd arg) fd (fun d => d) fl_flags.

(** [fcntl(fd, F_SETFL, arg)]: the flags in [SETFL_MASK] are taken from
    [arg], the others (access mode, creation flags) are kept. *)
Definition fcntl_setfl (fd arg : Z) : kprog Z :=
  syscall (F_SETFL fd arg) fd
    (fun d => mkFdesc (fd_flags d)
                (Z.lor (Z.land arg SETFL_MASK)
                       (Z.land (fl_flags d) (Z.lnot SETFL_MASK)))
                (so_nosigpipe d))
    (fun _ => 0).

(** [setsockopt(fd, SOL_SOCKET, SO_NOSIGPIPE, &val, sizeof(val))]. *)
Definition setsockopt_nosigpipe (fd val : Z) : kprog Z :=
  syscall (SO_NOSIGPIPE fd val) fd
    (fun d => mkFdesc (fd_flags d) (fl_flags d) val) (fun _ => 0).

(** *** The functions of socket.c

    The flag words are non-negative [int]s below [2^31], on which [|] and
    [& ~] do not leave the range of [int]: they are [Z.lor] and [Z.land]
    with [Z.lnot]. *)

Definition socket_set_nonblocking (fd : Z) (non_block : bool) : kprog bool :=
  flags <- fcntl_getfl fd 0 ;;
  if flags <? 0 then kret false
  else
    let flags := if non_block then Z.lor flags O_NONBLOCK
                 else Z.land flags (Z.lnot O_NONBLOCK) in
    res <- fcntl_setfl fd flags ;;
    if res <? 0 then kret false
    else kret true.

(** The block under [#ifdef SO_NOSIGPIPE] assigns to [val], which the
    function does not declare; it is read as a local [int]. *)
Definition socket_setup (sock : Z) (non_block : bool) : kprog bool :=
  res <- fcntl_setfd sock FD_CLOEXEC ;;
  if res <? 0 then kret false
  else
    let nonblocking :=
      ok <- socket_set_nonblocking sock non_block ;;
      if negb ok then kret false
      else kret true in
    if HAVE_SO_NOSIGPIPE then
      let val := 1 in
      res <- setsockopt_nosigpipe sock val ;;
      if res <? 0 then kret false
      else nonblocking
    else nonblocking.

End Helpers.

(** *** Observations on a descriptor *)

Section Observations.
Context {P : Platform}.

Definition is_cloexec (k : kernel) (fd : Z) : bool :=
  match fds k !! fd with
  | Some d => negb (Z.land (fd_flags d) FD_CLOEXEC =? 0)
  | None => false
  end.

Definition is_nonblocking (k : kernel) (fd : Z) : bool :=
  match fds k !! fd with
  | Some d => negb (Z.land (fl_flags d) O_NONBLOCK =? 0)
  | None => false
  end.

(** The file status flags of [fd]; [0] when it is not open. *)
Definition status_flags (k : kernel) (fd : Z) : Z :=
  match fds k !! fd with
  | Some d => fl_flags d
  | None => 0
  end.

(** The calls [socket_setup] makes when none fails, in order. *)
Definition setup_plan (k : kernel) (sock : Z) (non_block : bool) : list call :=
  [F_SETFD sock FD_CLOEXEC] ++
  (if HAVE_SO_NOSIGPIPE then [SO_NOSIGPIPE sock 1] else []) ++
  [F_GETFL sock 0;
   F_SETFL sock (if non_block then Z.lor (status_flags k sock) O_NONBLOCK
                 else Z.land (status_flags k sock) (Z.lnot O_NONBLOCK))].

(** The values the calls of the plan return when they go through. *)
Definition setup_answers (k : kernel) (sock : Z) : list Z :=
  [0] ++ (if HAVE_SO_NOSIGPIPE then [0] else []) ++
  [status_flags k sock; 0].

End Observations.

(** A table for examples: descriptor 3, opened read-write ([O_RDWR] is 2),
    and no call made to fail. *)
Definition example_kernel : kernel :=
  mkKernel {[ 3 := mkFdesc 0 2 0 ]} (fun _ => false) [].

(** The same with the second system call made to fail. *)
Definition example_kernel_fault : kernel :=
  mkKernel {[ 3 := mkFdesc 0 2 0 ]} (fun i => Nat.eqb i 1) [].

End Socket.

(** * Properties of safeio.c *)

Module SafeIOFacts.
Import SafeIO.
Local Open Scope prog_scope.

Section Facts.
Context {P : Platform}.

(** ** The outcomes to come *)

Lemma coming_0 w : coming w 0 = next_out w.
Proof. reflexivity. Qed.

Lemma coming_sys_world c w i : coming (sys_world c w) i = coming w (S i).
Proof.
  unfold coming, sys_world, store_errno, next_out.
  destruct (out_res _ <? 0); simpl; rewrite length_app; simpl;
    f_equal; lia.
Qed.

Lemma forallb_seq_shift (f : nat -> bool) n a :
  forallb f (seq (S a) n) = forallb (fun i => f (S i)) (seq a n).
Proof.
  revert a; induction n as [|n IH]; intros a; simpl; [reflexivity|].
  now rewrite IH.
Qed.

Lemma forallb_seq_ext (f g : nat -> bool) n a :
  (forall i, f i = g i) -> forallb f (seq a n) = forallb g (seq a n).
Proof.
  intros E; revert a; induction n as [|n IH]; intros a; simpl;
    [reflexivity|]. now rewrite E, IH.
Qed.

Lemma forallb_seq_spec (f : nat -> bool) n :
  forallb f (seq 0 n) = true <-> forall i, (i < n)%nat -> f i = true.
Proof.
  rewrite forallb_forall. split.
  - intros H i Hi. apply H, in_seq. lia.
  - intros H i Hi. apply in_seq in Hi. apply H. lia.
Qed.

Lemma eintr_prefix_spec w n :
  eintr_prefix w n = true <->
  (forall i, (i < n)%nat -> is_eintr (coming w i) = true) /\
  is_eintr (coming w n) = false.
Proof.
  unfold eintr_prefix. rewrite andb_true_iff, negb_true_iff.
  now rewrite forallb_seq_spec.
Qed.

Lemma eintr_prefix_O w :
  eintr_prefix w 0 = true -> is_eintr (next_out w) = false.
Proof. intros H. apply eintr_prefix_spec in H. apply H. Qed.

(** A step of a world [w] to a world [w'] whose coming outcomes are those
    of [w] after the first. *)
Lemma eintr_prefix_S w w' n :
  (forall i, coming w' i = coming w (S i)) ->
  eintr_prefix w (S n) = true ->
  is_eintr (next_out w) = true /\ eintr_prefix w' n = true.
Proof.
  intros Hc H. apply eintr_prefix_spec in H. destruct H as [H1 H2].
  split.
  - apply (H1 0%nat). lia.
  - apply eintr_prefix_spec. split.
    + intros i Hi. rewrite Hc. apply H1. lia.
    + now rewrite Hc.
Qed.

(** ** The test [res < 0 && errno == EINTR] after a system call *)

Lemma eintr_test c w :
  c_and (ret (out_res (next_out w) <? 0)) (errno_is EINTR) (sys_world c w)
  = Some (is_eintr (next_out w), sys_world c w).
Proof.
  unfold c_and, errno_is, bind, ret, get_errno, is_eintr, sys_world,
    store_errno.
  destruct (out_res (next_out w) <? 0); reflexivity.
Qed.

(** ** Loops that repeat on [EINTR]

    [body] makes one system call per round, moving the world by [step],
    and jumps back exactly when the call failed with [EINTR]. *)

Section EintrLoop.
Variables (S A : Type).
Variable body : S -> prog (S + A).
Variable step : S -> world -> S * world.
Variable final : S -> world -> A.

Hypothesis body_round : forall s w,
  body s w = Some (if is_eintr (next_out w) then inl (fst (step s w))
                   else inr (final s w),
                   snd (step s w)).
Hypothesis step_coming : forall s w i,
  coming (snd (step s w)) i = coming w (Datatypes.S i).
Variable c : call.
Hypothesis step_trace : forall s w,
  sys_trace (snd (step s w)) = sys_trace w ++ [c].
Hypothesis step_errno : forall s w,
  out_res (next_out w) < 0 ->
  errno (snd (step s w)) = out_errno (next_out w).

Lemma goto_loop_eintr n : forall s w fuel,
  eintr_prefix w n = true -> (n < fuel)%nat ->
  goto_loop fuel body s w =
  Some (final (fst (rounds step n s w)) (snd (rounds step n s w)),
        snd (step (fst (rounds step n s w)) (snd (rounds step n s w)))).
Proof.
  induction n as [|n IH]; intros s w fuel Hp Hf;
    (destruct fuel as [|fuel]; [lia|]); simpl; rewrite body_round.
  - now rewrite (eintr_prefix_O _ Hp).
  - destruct (eintr_prefix_S w (snd (step s w)) n (step_coming s w) Hp)
      as [E Hp'].
    rewrite E. apply IH; [exact Hp'|lia].
Qed.

(** With every outcome an [EINTR] failure the loop uses up any number of
    rounds. *)
Lemma goto_loop_eintr_forever fuel : forall s w,
  (forall i, is_eintr (coming w i) = true) ->
  goto_loop fuel body s w = None.
Proof.
  induction fuel as [|fuel IH]; intros s w H; simpl; [reflexivity|].
  rewrite body_round, <- coming_0, H. apply IH.
  intros i. rewrite step_coming. apply H.
Qed.

Lemma rounds_coming n : forall s w i,
  coming (snd (rounds step n s w)) i = coming w (n + i).
Proof.
  induction n as [|n IH]; intros s w i; simpl; [reflexivity|].
  now rewrite IH, step_coming.
Qed.

Lemma rounds_trace n : forall s w,
  sys_trace (snd (rounds step n s w)) = sys_trace w ++ repeat c n.
Proof.
  induction n as [|n IH]; intros s w; simpl.
  - now rewrite app_nil_r.
  - now rewrite IH, step_trace, <- app_assoc.
Qed.

Lemma rounds_keeps (R : world -> world -> Prop) n :
  (forall w, R w w) -> (forall w1 w2 w3, R w1 w2 -> R w2 w3 -> R w1 w3) ->
  (forall s w, R w (snd (step s w))) ->
  forall s w, R w (snd (rounds step n s w)).
Proof.
  intros Rr Rt Hs. induction n as [|n IH]; intros s w; simpl; [apply Rr|].
  eapply Rt; [apply Hs|apply IH].
Qed.

(** The loop after [n] [EINTR] failures and another outcome: [n + 1]
    rounds, and [errno] holds the reason of a last failure. *)
Lemma goto_loop_eintr_post n s w fuel :
  eintr_prefix w n = true -> (n < fuel)%nat ->
  exists sN wN,
    rounds step n s w = (sN, wN) /\
    goto_loop fuel body s w = Some (final sN wN, snd (step sN wN)) /\
    next_out wN = coming w n /\
    sys_trace (snd (step sN wN)) = sys_trace w ++ repeat c (Datatypes.S n) /\
    (out_res (coming w n) < 0 ->
     errno (snd (step sN wN)) = out_errno (coming w n)).
Proof.
  intros Hp Hf.
  exists (fst (rounds step n s w)), (snd (rounds step n s w)).
  assert (Hn : next_out (snd (rounds step n s w)) = coming w n).
  { rewrite <- coming_0, rounds_coming. f_equal. lia. }
  split; [now destruct (rounds step n s w)|].
  split; [now apply goto_loop_eintr|].
  split; [exact Hn|]. split.
  - rewrite step_trace, rounds_trace, <- app_assoc. f_equal.
    change (repeat c n ++ [c] = repeat c (1 + n)).
    now rewrite Nat.add_comm, repeat_app.
  - intros Hneg. rewrite <- Hn in *. now apply step_errno.
Qed.

End EintrLoop.

(** ** Programs and the relations they keep *)

Section Keeps.
Variable R : world -> world -> Prop.
Hypothesis R_refl : forall w, R w w.
Hypothesis R_trans : forall w1 w2 w3, R w1 w2 -> R w2 w3 -> R w1 w3.

Lemma keeps_ret {A} (a : A) : keeps R (ret a).
Proof. intros w a' w' H. injection H as _ <-. apply R_refl. Qed.

Lemma keeps_bind {A B} (m : prog A) (k : A -> prog B) :
  keeps R m -> (forall a, keeps R (k a)) -> keeps R (bind m k).
Proof.
  intros Hm Hk w b w'. unfold bind.
  destruct (m w) as [[a w1]|] eqn:E; [|discriminate].
  intros H. eapply R_trans; [eapply Hm, E|eapply Hk, H].
Qed.

Lemma keeps_loop {S A} fuel (body : S -> prog (S + A)) :
  (forall s, keeps R (body s)) -> forall s, keeps R (goto_loop fuel body s).
Proof.
  intros Hb. induction fuel as [|fuel IH]; intros s w a w'; simpl;
    [discriminate|].
  destruct (body s w) as [[[s1|a1] w1]|] eqn:E; [| |discriminate].
  - intros H. eapply R_trans; [eapply Hb, E|eapply IH, H].
  - intros H. injection H as <- <-. eapply Hb, E.
Qed.

End Keeps.

Lemma total_ret {A} (a : A) : total (ret a).
Proof. intros w. now exists a, w. Qed.

Lemma total_bind {A B} (m : prog A) (k : A -> prog B) :
  total m -> (forall a, total (k a)) -> total (bind m k).
Proof.
  intros Hm Hk w. destruct (Hm w) as (a & w1 & E).
  destruct (Hk a w1) as (b & w2 & E2). exists b, w2.
  unfold bind. now rewrite E.
Qed.

Lemma bind_eq {A B} (m : prog A) (k : A -> prog B) w a w' :
  m w = Some (a, w') -> bind m k w = k a w'.
Proof. intros E. unfold bind. now rewrite E. Qed.

(** A program without loop followed by [ret r]. *)
Lemma then_ret {A B} (m : prog A) (r : B) w :
  total m -> keeps only_logs m ->
  exists w', (m ;; ret r) w = Some (r, w') /\ only_logs w w'.
Proof.
  intros Ht Hk. destruct (Ht w) as (a & w' & E). exists w'.
  split; [now rewrite (bind_eq _ _ _ _ _ E)|]. eapply Hk, E.
Qed.

Lemma only_logs_refl w : only_logs w w.
Proof. repeat split. exists []. now rewrite app_nil_r. Qed.

Lemma only_logs_trans w1 w2 w3 :
  only_logs w1 w2 -> only_logs w2 w3 -> only_logs w1 w3.
Proof.
  intros (A1 & A2 & A3 & A4 & A5 & A6 & l & A7)
         (B1 & B2 & B3 & B4 & B5 & B6 & l' & B7).
  repeat split; try congruence.
  exists (l ++ l'). now rewrite B7, A7, app_assoc.
Qed.

Lemma same_cf_verbose_refl w : same_cf_verbose w w.
Proof. reflexivity. Qed.

Lemma same_cf_verbose_trans w1 w2 w3 :
  same_cf_verbose w1 w2 -> same_cf_verbose w2 w3 -> same_cf_verbose w1 w3.
Proof. unfold same_cf_verbose. congruence. Qed.

Lemma same_sa2str_buf_refl w : same_sa2str_buf w w.
Proof. reflexivity. Qed.

Lemma same_sa2str_buf_trans w1 w2 w3 :
  same_sa2str_buf w1 w2 -> same_sa2str_buf w2 w3 -> same_sa2str_buf w1 w3.
Proof. unfold same_sa2str_buf. congruence. Qed.

Lemma same_inet_ntoa_buf_refl w : same_inet_ntoa_buf w w.
Proof. reflexivity. Qed.

Lemma same_inet_ntoa_buf_trans w1 w2 w3 :
  same_inet_ntoa_buf w1 w2 -> same_inet_ntoa_buf w2 w3 ->
  same_inet_ntoa_buf w1 w3.
Proof. unfold same_inet_ntoa_buf. congruence. Qed.

Create HintDb safeio.
#[local] Hint Resolve only_logs_refl only_logs_trans same_cf_verbose_refl
  same_cf_verbose_trans same_sa2str_buf_refl same_sa2str_buf_trans
  same_inet_ntoa_buf_refl same_inet_ntoa_buf_trans : safeio.

(** The primitive operations: one step, read off the definition. *)
Ltac prim_solve :=
  let H := fresh in
  intros ? ? ? H; inversion H; subst; clear H;
  unfold only_logs, same_cf_verbose, same_sa2str_buf, same_inet_ntoa_buf,
    sys_world, store_errno;
  repeat match goal with
         | |- context [if ?b then _ else _] => destruct b
         end;
  simpl; repeat split; auto;
  try (now exists []; rewrite app_nil_r); try (now eexists).

Ltac unfold_helpers :=
  unfold c_and, c_or, errno_is, verbose_gt, strerror_errno, sa2str,
    log_noise, log_warning, log_debug, continue, break.

Ltac keeps_go :=
  unfold_helpers;
  repeat match goal with
         | |- keeps _ (ret _) => apply keeps_ret; solve [eauto with safeio]
         | |- keeps _ (bind _ _) =>
             apply keeps_bind; [solve [eauto with safeio] | | intros ?]
         | |- keeps _ (goto_loop _ _ _) =>
             apply keeps_loop; [solve [eauto with safeio] | intros ?]
         | |- keeps _ (if ?b then _ else _) => destruct b
         | |- keeps _ _ => solve [prim_solve]
         end.

Ltac total_go :=
  unfold_helpers;
  repeat match goal with
         | |- total (ret _) => apply total_ret
         | |- total (bind _ _) => apply total_bind; [| intros ?]
         | |- total (if ?b then _ else _) => destruct b
         | |- total _ => solve [intros ?; eexists; eexists; reflexivity]
         end.

(** ** The rounds of the three loop shapes *)

(** [read], [write], [recv], [send], [close], [recvmsg], [connect]: a
    round is the system call. *)
Lemma simple_round c (s : unit) w :
  (res <- sys c ;;
   again <- c_and (ret (res <? 0)) (errno_is EINTR) ;;
   if again then continue tt else break res) w =
  Some (if is_eintr (next_out w) then inl tt
        else inr (out_res (next_out w)),
        sys_world c w).
Proof.
  erewrite bind_eq by reflexivity.
  erewrite bind_eq by apply eintr_test.
  now destruct (is_eintr (next_out w)).
Qed.

Lemma sys_world_errno c w :
  out_res (next_out w) < 0 ->
  errno (sys_world c w) = out_errno (next_out w).
Proof.
  intros H. unfold sys_world, store_errno.
  apply Z.ltb_lt in H. now rewrite H.
Qed.

Lemma sys_world_trace c w : sys_trace (sys_world c w) = sys_trace w ++ [c].
Proof. unfold sys_world, store_errno. now destruct (_ <? _). Qed.

Lemma only_sys_world c w : only_sys w (sys_world c w).
Proof.
  unfold only_sys, sys_world, store_errno. now destruct (_ <? _).
Qed.

Lemma only_sys_refl w : only_sys w w.
Proof. now repeat split. Qed.

Lemma only_sys_trans w1 w2 w3 :
  only_sys w1 w2 -> only_sys w2 w3 -> only_sys w1 w3.
Proof. unfold only_sys. intuition congruence. Qed.

(** The loop of the seven simple wrappers. *)
Lemma simple_loop c n w fuel :
  eintr_prefix w n = true -> (n < fuel)%nat ->
  exists W,
    goto_loop fuel (fun _ : unit =>
      res <- sys c ;;
      again <- c_and (ret (res <? 0)) (errno_is EINTR) ;;
      if again then continue tt else break res) tt w
    = Some (out_res (coming w n), W) /\
    only_sys w W /\
    sys_trace W = sys_trace w ++ repeat c (S n) /\
    (out_res (coming w n) < 0 -> errno W = out_errno (coming w n)).
Proof.
  intros Hp Hf.
  set (step := fun (_ : unit) w => (tt, sys_world c w)).
  destruct (goto_loop_eintr_post unit Z _ step
              (fun _ w => out_res (next_out w))
              (fun s w => simple_round c s w)
              (fun _ w i => coming_sys_world c w i) c
              (fun _ w => sys_world_trace c w)
              (fun _ w => sys_world_errno c w) n tt w fuel Hp Hf)
    as (sN & wN & Hr & Hl & Hn & Ht & He).
  exists (sys_world c wN). rewrite Hn in Hl.
  split; [exact Hl|]. split; [|split; assumption].
  eapply only_sys_trans; [|apply only_sys_world].
  replace wN with (snd (rounds step n tt w)) by now rewrite Hr.
  apply rounds_keeps;
    [apply only_sys_refl|apply only_sys_trans|intros; apply only_sys_world].
Qed.

(** [safe_close]: on WIN32 a round also writes a debug line. *)
Lemma close_loop fd n w fuel :
  eintr_prefix w n = true -> (n < fuel)%nat ->
  exists W,
    goto_loop fuel (fun _ : unit =>
      res <- (if WIN32 then
                log_debug "closesocket(%d)" [ArgInt fd] ;;
                sys (Closesocket fd)
              else sys (Close fd)) ;;
      again <- c_and (ret (res <? 0)) (errno_is EINTR) ;;
      if again then continue tt else break res) tt w
    = Some (out_res (coming w n), W) /\
    sys_trace W = sys_trace w ++ repeat (wrapped (W_close fd)) (S n) /\
    (out_res (coming w n) < 0 -> errno W = out_errno (coming w n)).
Proof.
  intros Hp Hf. simpl wrapped. destruct WIN32.
  - set (l := mkLog LogDebug "closesocket(%d)" [ArgInt fd]).
    set (step := fun (_ : unit) w =>
                   (tt, sys_world (Closesocket fd) (add_log l w))).
    assert (Hb : forall (s : unit) w,
      (res <- (log_debug "closesocket(%d)" [ArgInt fd] ;;
               sys (Closesocket fd)) ;;
       again <- c_and (ret (res <? 0)) (errno_is EINTR) ;;
       if again then continue tt else break res) w =
      Some (if is_eintr (next_out w) then inl (fst (step s w))
            else inr (out_res (next_out w)), snd (step s w))).
    { intros s w0.
      erewrite bind_eq
        by (unfold bind, log_debug, log_at, sys; reflexivity).
      erewrite bind_eq by apply (eintr_test _ (add_log l w0)).
      change (next_out (add_log l w0)) with (next_out w0).
      now destruct (is_eintr (next_out w0)). }
    destruct (goto_loop_eintr_post unit Z _ step
                (fun _ w => out_res (next_out w)) Hb
                (fun _ w i => coming_sys_world _ (add_log l w) i)
                (Closesocket fd)
                (fun _ w => sys_world_trace _ (add_log l w))
                (fun _ w => sys_world_errno _ (add_log l w))
                n tt w fuel Hp Hf)
      as (sN & wN & Hr & Hl & Hn & Ht & He).
    rewrite Hn in Hl. eauto.
  - destruct (simple_loop (Close fd) n w fuel Hp Hf) as (W & ? & ? & ? & ?).
    eauto.
Qed.

(** [safe_accept]: the caller's address buffer lives across the rounds. *)
Lemma accept_loop fd sa n w fuel :
  eintr_prefix w n = true -> (n < fuel)%nat ->
  exists sa' W,
    goto_loop fuel (fun sa : sockaddr =>
      r <- sys_accept fd sa ;;
      again <- c_and (ret (fst r <? 0)) (errno_is EINTR) ;;
      if again then continue (snd r) else break r) sa w
    = Some ((out_res (coming w n), sa'), W) /\
    only_sys w W /\
    sys_trace W = sys_trace w ++ repeat (Accept fd) (S n) /\
    (out_res (coming w n) < 0 -> errno W = out_errno (coming w n)).
Proof.
  intros Hp Hf.
  set (step := fun (sa : sockaddr) w => (peer sa w, sys_world (Accept fd) w)).
  assert (Hb : forall sa w,
    (r <- sys_accept fd sa ;;
     again <- c_and (ret (fst r <? 0)) (errno_is EINTR) ;;
     if again then continue (snd r) else break r) w =
    Some (if is_eintr (next_out w) then inl (fst (step sa w))
          else inr (out_res (next_out w), peer sa w), snd (step sa w))).
  { intros sa0 w0.
    erewrite bind_eq by reflexivity.
    erewrite bind_eq by apply eintr_test.
    now destruct (is_eintr (next_out w0)). }
  destruct (goto_loop_eintr_post sockaddr (Z * sockaddr) _ step
              (fun sa w => (out_res (next_out w), peer sa w)) Hb
              (fun _ w i => coming_sys_world _ w i) (Accept fd)
              (fun _ w => sys_world_trace _ w)
              (fun _ w => sys_world_errno _ w) n sa w fuel Hp Hf)
    as (sN & wN & Hr & Hl & Hn & Ht & He).
  exists (peer sN wN), (sys_world (Accept fd) wN). rewrite Hn in Hl.
  split; [exact Hl|]. split; [|split; assumption].
  eapply only_sys_trans; [|apply only_sys_world].
  replace wN with (snd (rounds step n sa w)) by now rewrite Hr.
  apply rounds_keeps;
    [apply only_sys_refl|apply only_sys_trans|intros; apply only_sys_world].
Qed.

(** ** The wrappers after their loop *)

Lemma not_eintr_errno w n :
  eintr_prefix w n = true -> out_res (coming w n) < 0 ->
  out_errno (coming w n) <> EINTR.
Proof.
  intros Hp Hneg. apply eintr_prefix_spec in Hp. destruct Hp as [_ Hp].
  unfold is_eintr in Hp. apply Z.ltb_lt in Hneg. rewrite Hneg in Hp.
  simpl in Hp. now apply Z.eqb_neq.
Qed.

Lemma bind_assoc {A B C} (m : prog A) (f : A -> prog B) (g : B -> prog C) w :
  bind (bind m f) g w = bind m (fun x => bind (f x) g) w.
Proof. unfold bind. now destruct (m w) as [[a w1]|]. Qed.

Lemma yields_ret {A} (v : A) : yields v (ret v).
Proof. intros w b w' H. now injection H. Qed.

Lemma yields_bind {A B} (v : B) (m : prog A) (k : A -> prog B) :
  (forall a, yields v (k a)) -> yields v (bind m k).
Proof.
  intros Hk w b w'. unfold bind. destruct (m w) as [[a w1]|];
    [apply Hk|discriminate].
Qed.

Ltac yields_go :=
  repeat match goal with
         | |- yields _ (ret _) => apply yields_ret
         | |- yields _ (bind _ _) => apply yields_bind; intros ?
         | |- yields _ (if ?b then _ else _) => destruct b
         end.

(** The code after the loop keeps what the loop has established. *)
Lemma after_loop {A B} (loop : prog A) (rest : A -> prog B) (r : A) (v : B)
  (c : call) w n W :
  loop w = Some (r, W) ->
  sys_trace W = sys_trace w ++ repeat c (S n) ->
  (out_res (coming w n) < 0 -> errno W = out_errno (coming w n)) ->
  eintr_prefix w n = true ->
  total (rest r) -> keeps only_logs (rest r) -> yields v (rest r) ->
  exists w',
    (x <- loop ;; rest x) w = Some (v, w') /\
    only_logs W w' /\
    sys_trace w' = sys_trace w ++ repeat c (S n) /\
    (out_res (coming w n) < 0 ->
     errno w' = out_errno (coming w n) /\ errno w' <> EINTR).
Proof.
  intros Hl Ht He Hp Htot Hk Hv.
  destruct (Htot W) as (b & w' & E). exists w'.
  pose proof (Hk _ _ _ E) as Ho.
  pose proof Ho as (_ & Herr & _ & Htr & _).
  rewrite (bind_eq _ _ _ _ _ Hl), E, (Hv _ _ _ E).
  split; [reflexivity|]. split; [exact Ho|]. split; [congruence|].
  intros Hneg. rewrite Herr, (He Hneg).
  split; [reflexivity|now apply not_eintr_errno].
Qed.

Ltac epilogue_go :=
  first [solve [total_go] | solve [keeps_go] | solve [yields_go]].

Lemma after_loop_result {A B} (loop : prog A) (rest : A -> prog B) (r : A)
  (v : B) (c : call) w n W :
  loop w = Some (r, W) ->
  sys_trace W = sys_trace w ++ repeat c (S n) ->
  (out_res (coming w n) < 0 -> errno W = out_errno (coming w n)) ->
  eintr_prefix w n = true ->
  total (rest r) -> keeps only_logs (rest r) -> yields v (rest r) ->
  exists w',
    (x <- loop ;; rest x) w = Some (v, w') /\
    sys_trace w' = sys_trace w ++ repeat c (S n) /\
    (out_res (coming w n) < 0 ->
     errno w' = out_errno (coming w n) /\ errno w' <> EINTR).
Proof.
  intros Hl Ht He Hp Htot Hk Hv.
  destruct (after_loop loop rest r v c w n W Hl Ht He Hp Htot Hk Hv)
    as (w' & ? & _ & ?). eauto.
Qed.

(** Every wrapper but [safe_sendmsg] returns the first result that is not
    an [EINTR] failure. *)
Lemma others_return_first_non_eintr x :
  is_sendmsg x = false -> returns_first_non_eintr x.
Proof.
  intros Hx w n fuel Hp Hf.
  destruct x; try discriminate Hx; simpl run.
  - destruct (simple_loop (Read fd len) n w fuel Hp Hf)
      as (W & Hl & _ & Ht & He).
    eapply after_loop_result; eauto; epilogue_go.
  - destruct (simple_loop (Write fd len) n w fuel Hp Hf)
      as (W & Hl & _ & Ht & He).
    eapply after_loop_result; eauto; epilogue_go.
  - destruct (simple_loop (Recv fd len flags) n w fuel Hp Hf)
      as (W & Hl & _ & Ht & He).
    eapply after_loop_result; eauto; epilogue_go.
  - destruct (simple_loop (Send fd len flags) n w fuel Hp Hf)
      as (W & Hl & _ & Ht & He).
    eapply after_loop_result; eauto; epilogue_go.
  - destruct (close_loop fd n w fuel Hp Hf) as (W & Hl & Ht & He).
    eapply after_loop_result; eauto; epilogue_go.
  - destruct (simple_loop (Connect fd sa) n w fuel Hp Hf)
      as (W & Hl & _ & Ht & He).
    eapply after_loop_result; eauto; epilogue_go.
  - destruct (accept_loop fd sa n w fuel Hp Hf)
      as (sa' & W & Hl & _ & Ht & He).
    assert (exists w',
      safe_accept fuel fd sa w = Some ((out_res (coming w n), sa'), w') /\
      sys_trace w' = sys_trace w ++ repeat (Accept fd) (S n) /\
      (out_res (coming w n) < 0 ->
       errno w' = out_errno (coming w n) /\ errno w' <> EINTR))
      as (w' & E & ?)
      by (eapply after_loop_result; eauto; epilogue_go).
    exists w'. split; [|assumption].
    now rewrite (bind_eq _ _ _ _ _ E).
  - destruct (simple_loop (Recvmsg fd flags) n w fuel Hp Hf)
      as (W & Hl & _ & Ht & He).
    eapply after_loop_result; eauto; epilogue_go.
Qed.

(** ** The loop of [safe_sendmsg] *)

Lemma safe_sendmsg_unfold fuel fd msg flags :
  safe_sendmsg fuel fd msg flags =
  (res <- goto_loop fuel (sendmsg_body fd msg flags) 0 ;; ret res).
Proof. reflexivity. Qed.

Lemma eintr_not_emsgsize o : is_eintr o = true -> is_emsgsize o = false.
Proof.
  unfold is_eintr, is_emsgsize. destruct (out_res o <? 0); simpl;
    [|reflexivity].
  intros H. apply Z.eqb_eq in H. rewrite H. apply Z.eqb_neq.
  apply EINTR_neq_EMSGSIZE.
Qed.

Lemma sendmsg_round_eintr fd msg flags count w :
  is_eintr (next_out w) = true ->
  sendmsg_body fd msg flags count w =
  Some (inl count, sys_world (Sendmsg fd msg flags) w).
Proof.
  intros E. unfold sendmsg_body.
  erewrite bind_eq by reflexivity.
  erewrite bind_eq by apply eintr_test.
  now rewrite E.
Qed.

Lemma sendmsg_round_emsg fd msg flags count w :
  is_emsgsize (next_out w) = true -> (count <? 20) = true ->
  sendmsg_body fd msg flags count w =
  Some (inl (count + 1), emsg_round fd msg flags w).
Proof.
  intros E Hc. unfold sendmsg_body.
  erewrite bind_eq by reflexivity.
  erewrite bind_eq by apply eintr_test.
  assert (En : is_eintr (next_out w) = false).
  { destruct (is_eintr (next_out w)) eqn:E'; [|reflexivity].
    apply eintr_not_emsgsize in E'. congruence. }
  rewrite En. unfold is_emsgsize in E. apply andb_true_iff in E.
  destruct E as [Hneg He]. rewrite Hneg.
  unfold emsg_round, strerror_errno, c_and, errno_is, log_warning, log_at,
    select, continue, bind, ret, get_errno, sys_world, store_errno.
  rewrite Hneg. simpl. rewrite He, Hc. reflexivity.
Qed.

Lemma sendmsg_round_fail fd msg flags count w :
  is_eintr (next_out w) = false -> (out_res (next_out w) <? 0) = true ->
  is_emsgsize (next_out w) && (count <? 20) = false ->
  sendmsg_body fd msg flags count w =
  Some (inr (out_res (next_out w)),
        add_log (sendmsg_failure_line fd msg flags (out_errno (next_out w)))
                (sys_world (Sendmsg fd msg flags) w)).
Proof.
  intros En Hneg Hw. unfold sendmsg_body.
  erewrite bind_eq by reflexivity.
  erewrite bind_eq by apply eintr_test.
  rewrite En, Hneg. unfold is_emsgsize in Hw. rewrite Hneg in Hw.
  simpl in Hw.
  unfold strerror_errno, c_and, errno_is, log_warning, log_at,
    break, bind, ret, get_errno, sys_world, store_errno.
  rewrite Hneg. simpl. 
  destruct (out_errno (next_out w) =? EMSGSIZE); simpl in *;
    [now rewrite Hw|reflexivity].
Qed.

Lemma sendmsg_round_ok fd msg flags count w :
  (out_res (next_out w) <? 0) = false ->
  sendmsg_body fd msg flags count w =
  Some (inr (out_res (next_out w)),
        if cf_verbose w >? 2 then
          add_log (mkLog LogNoise "safe_sendmsg(%d, msg, %d) = %d"
                     [ArgInt fd; ArgInt flags; ArgInt (out_res (next_out w))])
                  (sys_world (Sendmsg fd msg flags) w)
        else sys_world (Sendmsg fd msg flags) w).
Proof.
  intros Hpos. unfold sendmsg_body.
  erewrite bind_eq by reflexivity.
  erewrite bind_eq by apply eintr_test.
  unfold is_eintr. rewrite Hpos. simpl.
  unfold verbose_gt, log_noise, log_at, break, bind, ret, get_cf_verbose,
    sys_world, store_errno.
  rewrite Hpos. simpl. now destruct (cf_verbose w >? 2).
Qed.

Lemma emsg_count_ext (o o' : nat -> outcome) n :
  (forall i, o i = o' i) -> emsg_count o n = emsg_count o' n.
Proof.
  revert o o'. induction n as [|n IH]; intros o o' H; simpl;
    [reflexivity|].
  rewrite H. f_equal. apply IH. intros i. apply H.
Qed.

Lemma retried_at_shift c0 (o o' : nat -> outcome) i :
  (forall j, o' j = o (S j)) ->
  retried_at (c0 + (if is_emsgsize (o 0%nat) then 1 else 0)) o' i =
  retried_at c0 o (S i).
Proof.
  intros H. unfold retried_at. rewrite H. simpl emsg_count.
  rewrite (emsg_count_ext (fun j => o (S j)) o') by (intros; now rewrite H).
  now rewrite Nat.add_assoc.
Qed.

Lemma coming_emsg_round fd msg flags w i :
  coming (emsg_round fd msg flags w) i = coming w (S i).
Proof.
  rewrite <- (coming_sys_world (Sendmsg fd msg flags)).
  unfold emsg_round, coming, store_errno.
  now destruct (out_res (select_out _ _) <? 0).
Qed.

(** What a round that ends in the sleep changes. *)
Lemma emsg_round_facts fd msg flags w :
  let W := emsg_round fd msg flags w in
  sys_trace W = sys_trace w ++ [Sendmsg fd msg flags] /\
  sleeps W = sleeps w ++ [mkTimeval 1 0] /\
  cf_verbose W = cf_verbose w /\ sa2str_buf W = sa2str_buf w /\
  sys_out W = sys_out w /\ select_out W = select_out w /\
  log W = log w ++ [sendmsg_failure_line fd msg flags
                      (out_errno (next_out w)); sleep_line].
Proof.
  unfold emsg_round, sys_world, store_errno.
  destruct (out_res (select_out _ _) <? 0);
    destruct (out_res (next_out w) <? 0); simpl;
    rewrite <- app_assoc; now repeat split.
Qed.

(** The loop of [safe_sendmsg], entered with [c0] failures counted: after
    [n] outcomes that make it call again and one that does not, it has
    called [n + 1] times, slept once per [EMSGSIZE] failure among the
    [n], and counted at most 20 of them. *)
Lemma sendmsg_loop fd msg flags n : forall (c0 : nat) w fuel,
  (c0 <= 20)%nat ->
  (forall i, (i < n)%nat -> retried_at c0 (coming w) i = true) ->
  retried_at c0 (coming w) n = false -> (n < fuel)%nat ->
  exists W,
    goto_loop fuel (sendmsg_body fd msg flags) (Z.of_nat c0) w =
      Some (out_res (coming w n), W) /\
    sys_trace W = sys_trace w ++ repeat (Sendmsg fd msg flags) (S n) /\
    sleeps W = sleeps w ++ repeat (mkTimeval 1 0) (emsg_count (coming w) n) /\
    (c0 + emsg_count (coming w) n <= 20)%nat /\
    cf_verbose W = cf_verbose w /\ sa2str_buf W = sa2str_buf w /\
    sys_out W = sys_out w /\ select_out W = select_out w /\
    (out_res (coming w n) < 0 -> errno W = out_errno (coming w n)).
Proof.
  induction n as [|n IH]; intros c0 w fuel Hc Hpre Hlast Hf;
    (destruct fuel as [|fuel]; [lia|]); simpl goto_loop.
  - unfold retried_at in Hlast. rewrite coming_0 in *.
    apply orb_false_iff in Hlast. destruct Hlast as [En Hw].
    simpl emsg_count in *. rewrite Nat.add_0_r in *.
    assert (Hw' : is_emsgsize (next_out w) && (Z.of_nat c0 <? 20) = false).
    { rewrite <- Hw. f_equal.
      destruct (Nat.ltb_spec c0 20); [apply Z.ltb_lt|apply Z.ltb_ge]; lia. }
    destruct (out_res (next_out w) <? 0) eqn:Hneg.
    + rewrite (sendmsg_round_fail _ _ _ _ _ En Hneg Hw').
      eexists. split; [reflexivity|].
      unfold sys_world, store_errno. rewrite Hneg. simpl.
      rewrite app_nil_r. now repeat split.
    + rewrite (sendmsg_round_ok _ _ _ _ _ Hneg).
      eexists. split; [reflexivity|].
      apply Z.ltb_ge in Hneg.
      unfold sys_world, store_errno.
      destruct (cf_verbose w >? 2); destruct (out_res (next_out w) <? 0);
        simpl; rewrite app_nil_r; repeat split; auto; lia.
  - assert (H0 : retried_at c0 (coming w) 0 = true) by (apply Hpre; lia).
    unfold retried_at in H0. rewrite coming_0 in H0.
    simpl emsg_count in H0. rewrite Nat.add_0_r in H0.
    set (b := if is_emsgsize (coming w 0) then 1%nat else 0%nat).
    assert (Hstep : exists w1,
      sendmsg_body fd msg flags (Z.of_nat c0) w =
        Some (inl (Z.of_nat (c0 + b)), w1) /\
      (forall i, coming w1 i = coming w (S i)) /\
      (c0 + b <= 20)%nat /\
      sys_trace w1 = sys_trace w ++ [Sendmsg fd msg flags] /\
      sleeps w1 = sleeps w ++ repeat (mkTimeval 1 0) b /\
      cf_verbose w1 = cf_verbose w /\ sa2str_buf w1 = sa2str_buf w /\
      sys_out w1 = sys_out w /\ select_out w1 = select_out w).
    { subst b. rewrite coming_0.
      destruct (is_eintr (next_out w)) eqn:En.
      - rewrite (eintr_not_emsgsize _ En), Nat.add_0_r.
        rewrite (sendmsg_round_eintr _ _ _ _ _ En).
        eexists. split; [reflexivity|].
        split; [apply coming_sys_world|].
        split; [assumption|].
        split; [apply sys_world_trace|].
        destruct (only_sys_world (Sendmsg fd msg flags) w)
          as (? & ? & ? & ? & ? & ?).
        simpl. rewrite app_nil_r. now repeat split.
      - simpl in H0. apply andb_true_iff in H0. destruct H0 as [Em Hlt].
        rewrite Em. apply Nat.ltb_lt in Hlt.
        rewrite sendmsg_round_emsg by (auto; apply Z.ltb_lt; lia).
        replace (Z.of_nat c0 + 1) with (Z.of_nat (c0 + 1)) by lia.
        eexists. split; [reflexivity|].
        split; [apply coming_emsg_round|].
        split; [lia|].
        destruct (emsg_round_facts fd msg flags w)
          as (? & ? & ? & ? & ? & ? & ?).
        now repeat split. }
    destruct Hstep as (w1 & Hb & Hc1 & Hle & Ht1 & Hs1 & Hv1 & Hb1 & Ho1 & Hso1).
    rewrite Hb.
    destruct (IH (c0 + b)%nat w1 fuel Hle) as (W & Hl & Ht & Hs & Hn & Hv & Hbuf & Ho & Hso & He).
    + intros i Hi. subst b. rewrite (retried_at_shift c0 (coming w)); auto.
      apply Hpre. lia.
    + subst b. now rewrite (retried_at_shift c0 (coming w)).
    + lia.
    + assert (Hcnt : emsg_count (coming w) (S n) =
                     (b + emsg_count (coming w1) n)%nat).
      { simpl. subst b. f_equal. apply emsg_count_ext.
        intros i. now rewrite Hc1. }
      exists W. rewrite Hc1 in Hl, He. split; [exact Hl|].
      rewrite Hcnt. split.
      { rewrite Ht, Ht1, <- app_assoc. reflexivity. }
      split.
      { rewrite Hs, Hs1, <- app_assoc, repeat_app. reflexivity. }
      split; [lia|].
      repeat split; try congruence. exact He.
Qed.

Lemma sendmsg_prefix_spec w n :
  sendmsg_prefix w n = true <->
  (forall i, (i < n)%nat -> retried_at 0 (coming w) i = true) /\
  retried_at 0 (coming w) n = false.
Proof.
  unfold sendmsg_prefix. rewrite andb_true_iff, negb_true_iff.
  now rewrite forallb_seq_spec.
Qed.

(** [safe_sendmsg] after [n] outcomes that make it call again. *)
Lemma safe_sendmsg_spec fd msg flags w n fuel :
  sendmsg_prefix w n = true -> (n < fuel)%nat ->
  exists w',
    safe_sendmsg fuel fd msg flags w = Some (out_res (coming w n), w') /\
    sys_trace w' = sys_trace w ++ repeat (Sendmsg fd msg flags) (S n) /\
    sleeps w' = sleeps w ++ repeat (mkTimeval 1 0) (emsg_count (coming w) n) /\
    (emsg_count (coming w) n <= 20)%nat /\
    cf_verbose w' = cf_verbose w /\ sa2str_buf w' = sa2str_buf w /\
    (out_res (coming w n) < 0 -> errno w' = out_errno (coming w n)).
Proof.
  intros Hp Hf. apply sendmsg_prefix_spec in Hp. destruct Hp as [Hpre Hlast].
  destruct (sendmsg_loop fd msg flags n 0 w fuel ltac:(lia) Hpre Hlast Hf)
    as (W & Hl & Ht & Hs & Hn & Hv & Hb & _ & _ & He).
  exists W. rewrite safe_sendmsg_unfold.
  change (Z.of_nat 0) with 0 in Hl. rewrite (bind_eq _ _ _ _ _ Hl).
  repeat split; auto.
Qed.

Lemma sendmsg_returns_first_final_holds fd msg flags :
  sendmsg_returns_first_final fd msg flags.
Proof.
  intros w n fuel Hp Hf.
  destruct (safe_sendmsg_spec fd msg flags w n fuel Hp Hf)
    as (w' & E & Ht & _ & _ & _ & _ & He).
  exists w'. split; [exact E|]. split; [exact Ht|].
  intros Hneg. split; [now apply He|]. rewrite (He Hneg).
  apply sendmsg_prefix_spec in Hp. destruct Hp as [_ Hp].
  unfold retried_at in Hp. apply orb_false_iff in Hp. destruct Hp as [Hp _].
  unfold is_eintr in Hp. apply Z.ltb_lt in Hneg. rewrite Hneg in Hp.
  now apply Z.eqb_neq.
Qed.

Lemma emsg_count_all n : forall o : nat -> outcome,
  (forall i, (i < n)%nat -> is_emsgsize (o i) = true) -> emsg_count o n = n.
Proof.
  induction n as [|n IH]; intros o H; simpl; [reflexivity|].
  rewrite (H 0%nat) by lia. rewrite IH; [reflexivity|].
  intros i Hi. apply H. lia.
Qed.

Lemma emsgsize_prefix_spec w n :
  emsgsize_prefix w n = true <->
  forall i, (i < n)%nat -> is_emsgsize (coming w i) = true.
Proof. apply forallb_seq_spec. Qed.

Lemma emsgsize_not_eintr o : is_emsgsize o = true -> is_eintr o = false.
Proof.
  intros H. destruct (is_eintr o) eqn:E; [|reflexivity].
  apply eintr_not_emsgsize in E. congruence.
Qed.

(** [EMSGSIZE] failures only: each of the first 20 is retried. *)
Lemma emsgsize_prefix_retried w n i :
  emsgsize_prefix w n = true -> (n <= 20)%nat -> (i < n)%nat ->
  retried_at 0 (coming w) i = true.
Proof.
  intros Hp Hn Hi. rewrite emsgsize_prefix_spec in Hp.
  unfold retried_at. rewrite (Hp i Hi), emsg_count_all.
  - simpl. replace (i <? 20)%nat with true; [apply orb_true_r|].
    symmetry. apply Nat.ltb_lt. lia.
  - intros j Hj. apply Hp. lia.
Qed.

(** ** The code after the loops, line by line *)

Lemma sa2str_run sa w :
  sa2str sa w =
  Some (c_str (sa2str_store sa (sa2str_buf w)),
        set_sa2str_buf (sa2str_store sa (sa2str_buf w))
          (set_inet_ntoa_buf (inet_ntoa_store sa (inet_ntoa_buf w)) w)).
Proof.
  unfold sa2str, sa2str_store, inet_ntoa_store.
  destruct (sa_family sa =? AF_INET); destruct (sa_family sa =? AF_UNIX);
    reflexivity.
Qed.

Lemma safe_connect_after_loop fuel fd sa w res W :
  goto_loop fuel (fun _ : unit =>
    res <- sys (Connect fd sa) ;;
    again <- c_and (ret (res <? 0)) (errno_is EINTR) ;;
    if again then continue tt else break res) tt w = Some (res, W) ->
  safe_connect fuel fd sa w =
  Some (res,
        let s := c_str (sa2str_store sa (sa2str_buf W)) in
        let Wb := set_sa2str_buf (sa2str_store sa (sa2str_buf W))
                    (set_inet_ntoa_buf
                       (inet_ntoa_store sa (inet_ntoa_buf W)) W) in
        if (res <? 0) && (negb (errno W =? EINPROGRESS) || (cf_verbose W >? 2))
        then add_log (mkLog LogNoise "connect(%d, %s) = %s"
                        [ArgInt fd; ArgStr s; ArgStrerror (errno W)]) Wb
        else if cf_verbose W >? 2
        then add_log (mkLog LogNoise "connect(%d, %s) = %d"
                        [ArgInt fd; ArgStr s; ArgInt res]) Wb
        else W).
Proof.
  intros Hl. unfold safe_connect. rewrite (bind_eq _ _ _ _ _ Hl).
  unfold c_and, c_or, errno_is, verbose_gt, strerror_errno, log_noise,
    log_at, bind, ret, get_errno, get_cf_verbose.
  destruct (res <? 0); destruct (errno W =? EINPROGRESS);
    destruct (cf_verbose W >? 2) eqn:Ev; simpl; rewrite ?Ev; simpl;
    rewrite ?sa2str_run; reflexivity.
Qed.

Lemma safe_recvmsg_after_loop fuel fd flags w res W :
  goto_loop fuel (fun _ : unit =>
    res <- sys (Recvmsg fd flags) ;;
    again <- c_and (ret (res <? 0)) (errno_is EINTR) ;;
    if again then continue tt else break res) tt w = Some (res, W) ->
  safe_recvmsg fuel fd flags w =
  Some (res,
        if res <? 0
        then add_log (mkLog LogWarning "safe_recvmsg(%d, msg, %d) = %s"
                        [ArgInt fd; ArgInt flags; ArgStrerror (errno W)]) W
        else if cf_verbose W >? 2
        then add_log (mkLog LogNoise "safe_recvmsg(%d, msg, %d) = %d"
                        [ArgInt fd; ArgInt flags; ArgInt res]) W
        else W).
Proof.
  intros Hl. unfold safe_recvmsg. rewrite (bind_eq _ _ _ _ _ Hl).
  unfold verbose_gt, strerror_errno, log_noise, log_warning,
    log_at, bind, ret, get_errno, get_cf_verbose.
  destruct (res <? 0); destruct (cf_verbose W >? 2) eqn:Ev; simpl;
    rewrite ?Ev; reflexivity.
Qed.

(** ** Termination *)

Lemma goto_loop_S {S A} fuel (body : S -> prog (S + A)) s w :
  goto_loop (Datatypes.S fuel) body s w =
  match body s w with
  | Some (inl s', w') => goto_loop fuel body s' w'
  | Some (inr a, w') => Some (a, w')
  | None => None
  end.
Proof. reflexivity. Qed.







(** ** Runs in worlds that agree *)






















Lemma c_str_app_NUL (a r : list ascii) : c_str (a ++ NUL :: r) = c_str a.
Proof.
  induction a as [|c a IH]; simpl; [reflexivity|].
  now rewrite IH.
Qed.
















(** ** What the wrappers leave alone *)




(** ** The static buffer of [sa2str] *)

Lemma snprintf_store_length buf n text :
  List.length buf = S n ->
  List.length (snprintf_store buf (S n) text) = S n.
Proof.
  intros H. unfold snprintf_store.
  rewrite length_app. simpl. rewrite length_skipn, H.
  pose proof (firstn_le_length n text). lia.
Qed.

Lemma sa2str_store_length sa buf :
  List.length buf = sizeof_buf ->
  List.length (sa2str_store sa buf) = sizeof_buf.
Proof.
  intros H. unfold sa2str_store, sizeof_buf in *.
  destruct (sa_family sa =? AF_INET); destruct (sa_family sa =? AF_UNIX);
    repeat apply snprintf_store_length; assumption.
Qed.

(** The last [snprintf] decides what the buffer starts with. *)
Lemma sa2str_store_last sa buf :
  exists rest,
    sa2str_store sa buf = firstn 255 (sa2str_text sa) ++ NUL :: rest.
Proof.
  unfold sa2str_store, sa2str_text, sizeof_buf, snprintf_store.
  destruct (sa_family sa =? AF_UNIX); eexists; reflexivity.
Qed.

Lemma c_str_length s : (List.length (c_str s) <= List.length s)%nat.
Proof.
  induction s as [|c s IH]; simpl; [lia|].
  destruct (Ascii.eqb c NUL); simpl; lia.
Qed.

(** A text without NUL is its own C string. *)
Lemma c_str_id s :
  forallb (fun c => negb (Ascii.eqb c NUL)) s = true -> c_str s = s.
Proof.
  induction s as [|c s IH]; simpl; [reflexivity|].
  intros H. apply andb_true_iff in H. destruct H as [Hc Hs].
  apply negb_true_iff in Hc. rewrite Hc. now rewrite IH.
Qed.

Lemma c_str_no_NUL s :
  forallb (fun c => negb (Ascii.eqb c NUL)) (c_str s) = true.
Proof.
  induction s as [|c s IH]; simpl; [reflexivity|].
  destruct (Ascii.eqb c NUL) eqn:E; simpl; [reflexivity|].
  now rewrite E, IH.
Qed.

Lemma sa2str_text_no_NUL sa :
  forallb (fun c => negb (Ascii.eqb c NUL)) (sa2str_text sa) = true.
Proof.
  unfold sa2str_text. destruct (sa_family sa =? AF_UNIX); [|reflexivity].
  rewrite forallb_app, c_str_no_NUL. reflexivity.
Qed.

Lemma firstn_no_NUL n s :
  forallb (fun c => negb (Ascii.eqb c NUL)) s = true ->
  forallb (fun c => negb (Ascii.eqb c NUL)) (firstn n s) = true.
Proof.
  revert s. induction n as [|n IH]; intros [|c s]; simpl; auto.
  intros H. apply andb_true_iff in H. destruct H as [-> Hs]. now apply IH.
Qed.

(** What [sa2str] returns: the text of its last [snprintf], cut to 255
    characters. *)
Lemma sa2str_result sa w :
  exists w',
    sa2str sa w = Some (firstn 255 (sa2str_text sa), w') /\
    sa2str_buf w' = sa2str_store sa (sa2str_buf w).
Proof.
  rewrite sa2str_run.
  exists (set_sa2str_buf (sa2str_store sa (sa2str_buf w))
            (set_inet_ntoa_buf (inet_ntoa_store sa (inet_ntoa_buf w)) w)).
  split; [|reflexivity].
  destruct (sa2str_store_last sa (sa2str_buf w)) as (rest & E).
  rewrite E at 1.
  rewrite c_str_app_NUL, c_str_id; [reflexivity|].
  apply firstn_no_NUL, sa2str_text_no_NUL.
Qed.

(** The decimal text of a byte starts with a digit, not with the first
    letter of the placeholder. *)
Lemma fmt_d_byte_starts_with_digit b :
  match fmt_d (byte_val b) with
  | c :: _ => negb (Ascii.eqb c "s")
  | [] => false
  end = true.
Proof. destruct b; vm_compute; reflexivity. Qed.

(** ** The log and the static buffers after a call *)

Lemma bind_none {A B} (m : prog A) (k : A -> prog B) w :
  m w = None -> bind m k w = None.
Proof. intros H. unfold bind. now rewrite H. Qed.

(** A round of the loop of [safe_accept]. *)
Lemma accept_round fd sa w :
  (r <- sys_accept fd sa ;;
   again <- c_and (ret (fst r <? 0)) (errno_is EINTR) ;;
   if again then continue (snd r) else break r) w =
  Some (if is_eintr (next_out w) then inl (peer sa w)
        else inr (out_res (next_out w), peer sa w),
        sys_world (Accept fd) w).
Proof.
  erewrite bind_eq by reflexivity.
  erewrite bind_eq by apply eintr_test.
  now destruct (is_eintr (next_out w)).
Qed.

Lemma safe_accept_after_loop fuel fd sa w r W :
  goto_loop fuel (fun sa : sockaddr =>
    r <- sys_accept fd sa ;;
    again <- c_and (ret (fst r <? 0)) (errno_is EINTR) ;;
    if again then continue (snd r) else break r) sa w = Some (r, W) ->
  safe_accept fuel fd sa w =
  Some (r,
        if fst r <? 0
        then add_log (mkLog LogNoise "safe_accept(%d) = %s"
                        [ArgInt fd; ArgStrerror (errno W)]) W
        else if cf_verbose W >? 2
        then add_log (mkLog LogNoise "safe_accept(%d) = %d (%s)"
                        [ArgInt fd; ArgInt (fst r);
                         ArgStr (c_str (sa2str_store (snd r)
                                          (sa2str_buf W)))])
               (set_sa2str_buf (sa2str_store (snd r) (sa2str_buf W))
                  (set_inet_ntoa_buf
                     (inet_ntoa_store (snd r) (inet_ntoa_buf W)) W))
        else W).
Proof.
  intros Hl. unfold safe_accept. rewrite (bind_eq _ _ _ _ _ Hl).
  unfold verbose_gt, strerror_errno, log_noise, log_at, bind, ret,
    get_errno, get_cf_verbose.
  destruct (fst r <? 0); destruct (cf_verbose W >? 2) eqn:Ev; simpl;
    rewrite ?Ev; rewrite ?sa2str_run; reflexivity.
Qed.






(** ** The retry loops *)

(** C1, as amended.  Every wrapper other than [safe_sendmsg] calls the
    system call again after each [EINTR] failure, however many there are,
    and returns the first result that is not an [EINTR] failure;
    [safe_sendmsg] returns the first result that is neither an [EINTR]
    failure nor one of the first 20 [EMSGSIZE] failures.  In both cases a
    failure that reaches the caller never has the reason [EINTR]. *)
Theorem eintr_is_invisible :
  (forall x, is_sendmsg x = false -> returns_first_non_eintr x) /\
  (forall fd msg flags, sendmsg_returns_first_final fd msg flags).
Proof.
  split.
  - apply others_return_first_non_eintr.
  - apply sendmsg_returns_first_final_holds.
Qed.

(** C2.  [safe_sendmsg] sleeps one second ([select] with a timeout of
    1 s) and calls [sendmsg] again after each of the first 20 [EMSGSIZE]
    failures of a call.  A success after [k <= 20] such failures is
    returned at once: [k + 1] invocations and [k] sleeps.  A 21st
    [EMSGSIZE] failure is returned as it is: the result of that
    invocation, with [errno] still [EMSGSIZE], after 21 invocations and 20
    sleeps. *)
Theorem sendmsg_emsgsize_retries fd msg flags :
  (forall w k fuel,
     emsgsize_prefix w k = true -> (k <= 20)%nat ->
     0 <= out_res (coming w k) -> (k < fuel)%nat ->
     exists w',
       safe_sendmsg fuel fd msg flags w = Some (out_res (coming w k), w') /\
       sys_trace w' = sys_trace w ++ repeat (Sendmsg fd msg flags) (S k) /\
       sleeps w' = sleeps w ++ repeat (mkTimeval 1 0) k) /\
  (forall w fuel,
     emsgsize_prefix w 21 = true -> (20 < fuel)%nat ->
     exists w',
       safe_sendmsg fuel fd msg flags w = Some (out_res (coming w 20), w') /\
       out_res (coming w 20) < 0 /\ errno w' = EMSGSIZE /\
       sys_trace w' = sys_trace w ++ repeat (Sendmsg fd msg flags) 21 /\
       sleeps w' = sleeps w ++ repeat (mkTimeval 1 0) 20).
Proof.
  split.
  - intros w k fuel Hp Hk Hok Hf.
    assert (Hpre : sendmsg_prefix w k = true).
    { apply sendmsg_prefix_spec. split.
      - intros i Hi. now apply (emsgsize_prefix_retried w k).
      - unfold retried_at, is_eintr, is_emsgsize.
        apply Z.ltb_ge in Hok. now rewrite Hok. }
    destruct (safe_sendmsg_spec fd msg flags w k fuel Hpre Hf)
      as (w' & E & Ht & Hs & _).
    exists w'. rewrite emsg_count_all in Hs
      by now apply emsgsize_prefix_spec.
    auto.
  - intros w fuel Hp Hf.
    pose proof (proj1 (emsgsize_prefix_spec w 21) Hp) as Hall.
    assert (H20 : is_emsgsize (coming w 20) = true) by (apply Hall; lia).
    assert (Hp20 : emsgsize_prefix w 20 = true).
    { apply emsgsize_prefix_spec. intros i Hi. apply Hall. lia. }
    assert (Hpre : sendmsg_prefix w 20 = true).
    { apply sendmsg_prefix_spec. split.
      - intros i Hi. now apply (emsgsize_prefix_retried w 20).
      - unfold retried_at.
        rewrite (emsgsize_not_eintr _ H20), H20, emsg_count_all
          by now apply emsgsize_prefix_spec.
        reflexivity. }
    destruct (safe_sendmsg_spec fd msg flags w 20 fuel Hpre Hf)
      as (w' & E & Ht & Hs & _ & _ & _ & He).
    rewrite emsg_count_all in Hs by now apply emsgsize_prefix_spec.
    unfold is_emsgsize in H20. apply andb_true_iff in H20.
    destruct H20 as [Hneg Hmsg]. apply Z.ltb_lt in Hneg.
    apply Z.eqb_eq in Hmsg.
    exists w'. rewrite (He Hneg), Hmsg. auto.
Qed.

(** ** Logging *)

(** C6.  A failure of [connect] that is not [EINTR] is returned to the
    caller of [safe_connect].  If its reason is [EINPROGRESS] and
    [cf_verbose] is at most 2, no line is logged; for any other reason,
    and for [EINPROGRESS] when [cf_verbose > 2], one line with the reason
    is handed to [log_noise]. *)
Theorem connect_einprogress_is_quiet fd sa w n fuel :
  eintr_prefix w n = true -> (n < fuel)%nat ->
  out_res (coming w n) < 0 ->
  exists w',
    safe_connect fuel fd sa w = Some (out_res (coming w n), w') /\
    errno w' = out_errno (coming w n) /\
    (out_errno (coming w n) = EINPROGRESS -> cf_verbose w <= 2 ->
     log w' = log w) /\
    (out_errno (coming w n) <> EINPROGRESS \/ 2 < cf_verbose w ->
     exists s,
       log w' = log w ++
                [mkLog LogNoise "connect(%d, %s) = %s"
                   [ArgInt fd; ArgStr s;
                    ArgStrerror (out_errno (coming w n))]]).
Proof.
  intros Hp Hf Hneg.
  destruct (simple_loop (Connect fd sa) n w fuel Hp Hf)
    as (W & Hl & (Hv & _ & _ & _ & _ & Hlog) & _ & He).
  rewrite (safe_connect_after_loop _ _ _ _ _ _ Hl).
  eexists. split; [reflexivity|].
  pose proof (He Hneg) as He'.
  rewrite He', Hv. apply Z.ltb_lt in Hneg. rewrite Hneg. simpl.
  split; [|split].
  - destruct (_ || _); [|destruct (_ >? _)]; simpl; exact He'.
  - intros -> Hq. rewrite Z.eqb_refl. simpl.
    replace (cf_verbose w >? 2) with false; [assumption|].
    symmetry. rewrite Z.gtb_ltb. apply Z.ltb_ge. lia.
  - intros Hor. replace (negb _ || _) with true.
    + simpl. rewrite Hlog. eauto.
    + symmetry. apply orb_true_iff. destruct Hor as [Hne|Hgt].
      * left. apply negb_true_iff. now apply Z.eqb_neq.
      * right. rewrite Z.gtb_ltb. now apply Z.ltb_lt.
Qed.

(** C7.  Every failure of [recvmsg] that is not [EINTR] is handed to
    [log_warning], whatever [cf_verbose] is; a success is handed to
    [log_noise] when [cf_verbose > 2] and leaves the log alone
    otherwise. *)
Theorem recvmsg_failures_are_always_logged fd flags w n fuel :
  eintr_prefix w n = true -> (n < fuel)%nat ->
  exists w',
    safe_recvmsg fuel fd flags w = Some (out_res (coming w n), w') /\
    (out_res (coming w n) < 0 ->
     log w' = log w ++
              [mkLog LogWarning "safe_recvmsg(%d, msg, %d) = %s"
                 [ArgInt fd; ArgInt flags;
                  ArgStrerror (out_errno (coming w n))]]) /\
    (0 <= out_res (coming w n) -> 2 < cf_verbose w ->
     log w' = log w ++
              [mkLog LogNoise "safe_recvmsg(%d, msg, %d) = %d"
                 [ArgInt fd; ArgInt flags; ArgInt (out_res (coming w n))]]) /\
    (0 <= out_res (coming w n) -> cf_verbose w <= 2 -> log w' = log w).
Proof.
  intros Hp Hf.
  destruct (simple_loop (Recvmsg fd flags) n w fuel Hp Hf)
    as (W & Hl & (Hv & _ & _ & _ & _ & Hlog) & _ & He).
  rewrite (safe_recvmsg_after_loop _ _ _ _ _ _ Hl).
  eexists. split; [reflexivity|]. rewrite Hv.
  split; [|split].
  - intros Hneg. rewrite (He Hneg). apply Z.ltb_lt in Hneg.
    rewrite Hneg. simpl. now rewrite Hlog.
  - intros Hok Hgt. apply Z.ltb_ge in Hok. rewrite Hok.
    replace (cf_verbose w >? 2) with true.
    + simpl. now rewrite Hlog.
    + symmetry. rewrite Z.gtb_ltb. now apply Z.ltb_lt.
  - intros Hok Hle. apply Z.ltb_ge in Hok. rewrite Hok.
    replace (cf_verbose w >? 2) with false; [assumption|].
    symmetry. rewrite Z.gtb_ltb. apply Z.ltb_ge. lia.
Qed.

(** ** Termination of the wrappers *)


(** ** State *)


(** ** The rendering of addresses *)

(** C3 fails on the code for [AF_INET].  For an address of family
    [AF_INET], [sa2str] formats the address and the port and then, for
    want of an [else] before the second [if], overwrites them with the
    placeholder: it returns the placeholder, which is not the text of the
    address. *)
Theorem sa2str_ipv4_is_overwritten sa w :
  sa_family sa = AF_INET ->
  exists w',
    sa2str sa w =
      Some (list_ascii_of_string "sa2str: unknown proto", w') /\
    list_ascii_of_string "sa2str: unknown proto" <> ipv4_text sa.
Proof.
  intros Hf. destruct (sa2str_result sa w) as (w' & E & _).
  exists w'. unfold sa2str_text in E.
  replace (sa_family sa =? AF_UNIX) with false in E.
  - split; [exact E|].
    unfold ipv4_text, dotted_decimal. destruct (sin_addr sa) as [[[a1 a2] a3] a4].
    intros H. pose proof (fmt_d_byte_starts_with_digit a1) as Hd.
    destruct (fmt_d (byte_val a1)) as [|c digits]; [discriminate Hd|].
    injection H as <- _. discriminate Hd.
  - symmetry. apply Z.eqb_neq. rewrite Hf. apply AF_INET_neq_AF_UNIX.
Qed.

(** The other two cases of the rendering: an [AF_UNIX] address gives
    ["unix:"] and the path, any other family but [AF_INET] the
    placeholder, both cut to 255 characters. *)
Lemma sa2str_unix sa w :
  sa_family sa = AF_UNIX ->
  exists w',
    sa2str sa w =
    Some (firstn 255 (list_ascii_of_string "unix:" ++ c_str (sun_path sa)),
          w').
Proof.
  intros Hf. destruct (sa2str_result sa w) as (w' & E & _).
  exists w'. unfold sa2str_text in E.
  now rewrite Hf, Z.eqb_refl in E.
Qed.

Lemma sa2str_other sa w :
  sa_family sa <> AF_UNIX ->
  exists w',
    sa2str sa w = Some (list_ascii_of_string "sa2str: unknown proto", w').
Proof.
  intros Hf. destruct (sa2str_result sa w) as (w' & E & _).
  exists w'. unfold sa2str_text in E.
  apply Z.eqb_neq in Hf. now rewrite Hf in E.
Qed.

(** C9.  [sa2str] writes with [snprintf(buf, sizeof(buf), ...)] into its
    256-byte buffer: the buffer keeps its 256 bytes, the string returned is
    the text of the last [snprintf] cut to at most 255 characters, and it
    is followed by a NUL inside the buffer. *)
Theorem sa2str_fits_its_buffer sa w :
  List.length (sa2str_buf w) = sizeof_buf ->
  exists s w',
    sa2str sa w = Some (s, w') /\
    s = firstn 255 (sa2str_text sa) /\
    (List.length s <= 255)%nat /\
    List.length (sa2str_buf w') = sizeof_buf /\
    firstn (List.length s) (sa2str_buf w') = s /\
    nth_error (sa2str_buf w') (List.length s) = Some NUL.
Proof.
  intros Hlen. destruct (sa2str_result sa w) as (w' & E & Hb).
  exists (firstn 255 (sa2str_text sa)), w'.
  split; [exact E|]. split; [reflexivity|].
  split; [rewrite length_firstn; lia|].
  split; [rewrite Hb; now apply sa2str_store_length|].
  destruct (sa2str_store_last sa (sa2str_buf w)) as (rest & Hs).
  rewrite Hb, Hs. split.
  - rewrite firstn_app, Nat.sub_diag, firstn_all. simpl.
    now rewrite app_nil_r.
  - rewrite nth_error_app2 by lia. now rewrite Nat.sub_diag.
Qed.


(** * Further properties of safeio.c *)

(** ** The world after a retry loop *)

Lemma concat_repeat_nil {A} n : concat (repeat (@nil A) n) = [].
Proof. induction n; simpl; auto. Qed.

Lemma calls_made_O c pre w : calls_made c pre 0 (errno w) w w.
Proof.
  unfold calls_made. simpl. now rewrite !app_nil_r.
Qed.

Lemma calls_made_app c pre n m e1 e2 w1 w2 w3 :
  calls_made c pre n e1 w1 w2 -> calls_made c pre m e2 w2 w3 ->
  calls_made c pre (n + m) e2 w1 w3.
Proof.
  unfold calls_made.
  intros (Hv1 & Hb1 & Ho1 & Hs1 & Hz1 & Hl1 & Ht1 & _)
         (Hv2 & Hb2 & Ho2 & Hs2 & Hz2 & Hl2 & Ht2 & He2).
  rewrite Hv2, Hb2, Ho2, Hs2, Hz2, Hl2, Ht2, Hl1, Ht1.
  rewrite !repeat_app, concat_app, <- !app_assoc. auto 10.
Qed.

Lemma calls_made_errno c pre n e e' w w' :
  e = e' -> calls_made c pre n e w w' -> calls_made c pre n e' w w'.
Proof. now intros ->. Qed.

Lemma sys_world_made c w :
  calls_made c [] 1 (errno_after (next_out w) (errno w)) w (sys_world c w).
Proof.
  unfold calls_made, sys_world, store_errno, errno_after.
  destruct (out_res (next_out w) <? 0); simpl; now rewrite app_nil_r.
Qed.

Lemma eintr_errno_after o e : is_eintr o = true -> errno_after o e = EINTR.
Proof.
  unfold is_eintr, errno_after. intros H. apply andb_true_iff in H.
  destruct H as [-> H]. now apply Z.eqb_eq.
Qed.

Lemma rounds_snoc {S} (step : S -> world -> S * world) n : forall s w,
  rounds step (Datatypes.S n) s w =
  step (fst (rounds step n s w)) (snd (rounds step n s w)).
Proof.
  induction n; intros s w.
  - simpl. now destruct (step s w).
  - change (rounds step (Datatypes.S (Datatypes.S n)) s w)
      with (rounds step (Datatypes.S n) (fst (step s w)) (snd (step s w))).
    now rewrite IHn.
Qed.

Section LoopWorld.
Variables (S A : Type).
Variable body : S -> prog (S + A).
Variable step : S -> world -> S * world.
Variable final : S -> world -> A.
Variable c : call.
Variable pre : list log_entry.

Hypothesis body_round : forall s w,
  body s w = Some (if is_eintr (next_out w) then inl (fst (step s w))
                   else inr (final s w),
                   snd (step s w)).
Hypothesis step_made : forall s w,
  calls_made c pre 1 (errno_after (next_out w) (errno w)) w (snd (step s w)).

Lemma step_made_coming s w i :
  coming (snd (step s w)) i = coming w (Datatypes.S i).
Proof.
  destruct (step_made s w) as (_ & _ & Ho & _ & _ & _ & Ht & _).
  unfold coming. rewrite Ho, Ht, length_app. simpl. f_equal. lia.
Qed.

Lemma step_made_trace s w : sys_trace (snd (step s w)) = sys_trace w ++ [c].
Proof. now destruct (step_made s w) as (_ & _ & _ & _ & _ & _ & Ht & _). Qed.

Lemma step_made_errno s w :
  out_res (next_out w) < 0 ->
  errno (snd (step s w)) = out_errno (next_out w).
Proof.
  intros H. destruct (step_made s w) as (_ & _ & _ & _ & _ & _ & _ & He).
  rewrite He. unfold errno_after. apply Z.ltb_lt in H. now rewrite H.
Qed.

Lemma rounds_made n : forall s w,
  (forall i, (i < n)%nat -> is_eintr (coming w i) = true) ->
  calls_made c pre n (match n with O => errno w | _ => EINTR end) w
    (snd (rounds step n s w)).
Proof.
  induction n; intros s w H.
  - apply calls_made_O.
  - pose proof (step_made s w) as H1.
    assert (H0 : is_eintr (next_out w) = true)
      by (rewrite <- coming_0; apply H; lia).
    rewrite (eintr_errno_after _ _ H0) in H1.
    change (Datatypes.S n) with (1 + n)%nat.
    eapply calls_made_app; [exact H1|].
    eapply calls_made_errno; [|apply (IHn (fst (step s w)))].
    + destruct n; [|reflexivity].
      now destruct H1 as (_ & _ & _ & _ & _ & _ & _ & He).
    + intros i Hi. rewrite step_made_coming. apply H. lia.
Qed.

Lemma loop_world n s w fuel :
  eintr_prefix w n = true -> (n < fuel)%nat ->
  exists sN wN,
    rounds step n s w = (sN, wN) /\
    goto_loop fuel body s w = Some (final sN wN, snd (step sN wN)) /\
    next_out wN = coming w n /\
    calls_made c pre (Datatypes.S n) (errno_left w n) w (snd (step sN wN)).
Proof.
  intros Hp Hf.
  destruct (goto_loop_eintr_post S A body step final body_round
              step_made_coming c step_made_trace step_made_errno
              n s w fuel Hp Hf)
    as (sN & wN & Hr & Hl & Hn & _).
  exists sN, wN. split; [exact Hr|]. split; [exact Hl|].
  split; [exact Hn|].
  replace (Datatypes.S n) with (n + 1)%nat by lia.
  apply eintr_prefix_spec in Hp. destruct Hp as [Hp _].
  pose proof (rounds_made n s w Hp) as Hm. rewrite Hr in Hm.
  eapply calls_made_app; [exact Hm|].
  eapply calls_made_errno; [|apply step_made].
  unfold errno_left. rewrite Hn. f_equal.
  now destruct Hm as (_ & _ & _ & _ & _ & _ & _ & He).
Qed.

Lemma loop_forever fuel s w :
  (forall i, is_eintr (coming w i) = true) ->
  goto_loop fuel body s w = None.
Proof.
  apply (goto_loop_eintr_forever S A body step final body_round
           step_made_coming).
Qed.

End LoopWorld.

(** The rounds of [safe_close] and of [safe_accept]. *)
Lemma close_round fd (s : unit) w :
  (res <- (if WIN32 then
             log_debug "closesocket(%d)" [ArgInt fd] ;;
             sys (Closesocket fd)
           else sys (Close fd)) ;;
   again <- c_and (ret (res <? 0)) (errno_is EINTR) ;;
   if again then continue tt else break res) w =
  Some (if is_eintr (next_out w) then inl tt
        else inr (out_res (next_out w)),
        if WIN32
        then sys_world (Closesocket fd)
               (add_log (mkLog LogDebug "closesocket(%d)" [ArgInt fd]) w)
        else sys_world (Close fd) w).
Proof.
  destruct WIN32; [|apply simple_round].
  set (l := mkLog LogDebug "closesocket(%d)" [ArgInt fd]).
  erewrite bind_eq by (unfold bind, log_debug, log_at, sys; reflexivity).
  erewrite bind_eq by apply (eintr_test _ (add_log l w)).
  change (next_out (add_log l w)) with (next_out w).
  - destruct (is_eintr (next_out w)); reflexivity.
  - exact tt.
Qed.

Lemma close_world_made fd w :
  calls_made (wrapped (W_close fd)) (close_lines fd) 1
    (errno_after (next_out w) (errno w)) w
    (if WIN32
     then sys_world (Closesocket fd)
            (add_log (mkLog LogDebug "closesocket(%d)" [ArgInt fd]) w)
     else sys_world (Close fd) w).
Proof.
  unfold close_lines. simpl wrapped.
  destruct WIN32; [|apply sys_world_made].
  unfold calls_made, sys_world, store_errno, errno_after, next_out.
  simpl. destruct (out_res _ <? 0); simpl; auto 10.
Qed.

(** The three loops, with the whole world they leave. *)
Lemma simple_loop_world c n w fuel :
  eintr_prefix w n = true -> (n < fuel)%nat ->
  exists W,
    goto_loop fuel (fun _ : unit =>
      res <- sys c ;;
      again <- c_and (ret (res <? 0)) (errno_is EINTR) ;;
      if again then continue tt else break res) tt w
    = Some (out_res (coming w n), W) /\
    calls_made c [] (S n) (errno_left w n) w W.
Proof.
  intros Hp Hf.
  destruct (loop_world unit Z _ (fun _ w => (tt, sys_world c w))
              (fun _ w => out_res (next_out w)) c []
              (fun s w => simple_round c s w)
              (fun _ w => sys_world_made c w) n tt w fuel Hp Hf)
    as (sN & wN & _ & Hl & Hn & Hm).
  rewrite Hn in Hl. eauto.
Qed.

Lemma close_loop_world fd n w fuel :
  eintr_prefix w n = true -> (n < fuel)%nat ->
  exists W,
    goto_loop fuel (fun _ : unit =>
      res <- (if WIN32 then
                log_debug "closesocket(%d)" [ArgInt fd] ;;
                sys (Closesocket fd)
              else sys (Close fd)) ;;
      again <- c_and (ret (res <? 0)) (errno_is EINTR) ;;
      if again then continue tt else break res) tt w
    = Some (out_res (coming w n), W) /\
    calls_made (wrapped (W_close fd)) (close_lines fd) (S n)
      (errno_left w n) w W.
Proof.
  intros Hp Hf.
  destruct (loop_world unit Z _
              (fun _ w =>
                 (tt, if WIN32
                      then sys_world (Closesocket fd)
                             (add_log (mkLog LogDebug "closesocket(%d)"
                                         [ArgInt fd]) w)
                      else sys_world (Close fd) w))
              (fun _ w => out_res (next_out w))
              (wrapped (W_close fd)) (close_lines fd)
              (fun s w => close_round fd s w)
              (fun _ w => close_world_made fd w) n tt w fuel Hp Hf)
    as (sN & wN & _ & Hl & Hn & Hm).
  rewrite Hn in Hl. eauto.
Qed.

Lemma accept_rounds_buffer fd n : forall sa w,
  fst (rounds (fun sa w => (peer sa w, sys_world (Accept fd) w)) n sa w) =
  accept_writes (coming w) n sa.
Proof.
  induction n; intros sa w; [reflexivity|].
  rewrite rounds_snoc. cbn [fst accept_writes]. unfold peer at 1.
  rewrite <- coming_0.
  rewrite (rounds_coming _
             (fun sa w => (peer sa w, sys_world (Accept fd) w))
             (fun _ w i => coming_sys_world (Accept fd) w i)),
    Nat.add_0_r, IHn.
  reflexivity.
Qed.

Lemma accept_loop_world fd sa n w fuel :
  eintr_prefix w n = true -> (n < fuel)%nat ->
  exists W,
    goto_loop fuel (fun sa : sockaddr =>
      r <- sys_accept fd sa ;;
      again <- c_and (ret (fst r <? 0)) (errno_is EINTR) ;;
      if again then continue (snd r) else break r) sa w
    = Some ((out_res (coming w n), accept_writes (coming w) (S n) sa), W) /\
    calls_made (Accept fd) [] (S n) (errno_left w n) w W.
Proof.
  intros Hp Hf.
  destruct (loop_world sockaddr (Z * sockaddr) _
              (fun sa w => (peer sa w, sys_world (Accept fd) w))
              (fun sa w => (out_res (next_out w), peer sa w)) (Accept fd) []
              (fun sa w => accept_round fd sa w)
              (fun _ w => sys_world_made (Accept fd) w) n sa w fuel Hp Hf)
    as (sN & wN & Hr & Hl & Hn & Hm).
  exists (sys_world (Accept fd) wN). split; [|exact Hm].
  rewrite Hn in Hl. etransitivity; [exact Hl|]. do 3 f_equal.
  pose proof (accept_rounds_buffer fd (S n) sa w) as Hb.
  rewrite rounds_snoc, Hr in Hb. exact Hb.
Qed.

Lemma calls_made_trace_errno c pre n w W :
  calls_made c pre (S n) (errno_left w n) w W ->
  sys_trace W = sys_trace w ++ repeat c (S n) /\
  (out_res (coming w n) < 0 -> errno W = out_errno (coming w n)).
Proof.
  intros (_ & _ & _ & _ & _ & _ & Ht & He). split; [exact Ht|].
  intros Hneg. rewrite He. unfold errno_left, errno_after.
  apply Z.ltb_lt in Hneg. now rewrite Hneg.
Qed.

(** The code after the loop changes the log and the static buffer
    only. *)
Lemma after_loop_world {A B} (loop : prog A) (rest : A -> prog B) (r : A)
  (v : B) c pre w n W :
  loop w = Some (r, W) ->
  calls_made c pre (S n) (errno_left w n) w W ->
  eintr_prefix w n = true ->
  total (rest r) -> keeps only_logs (rest r) -> yields v (rest r) ->
  exists W0 w',
    (x <- loop ;; rest x) w = Some (v, w') /\
    calls_made c pre (S n) (errno_left w n) w W0 /\
    only_logs W0 w'.
Proof.
  intros Hl Hm Hp Htot Hk Hv.
  destruct (calls_made_trace_errno _ _ _ _ _ Hm) as [Ht He].
  destruct (after_loop loop rest r v c w n W Hl Ht He Hp Htot Hk Hv)
    as (w' & E & Ho & _).
  eauto.
Qed.

Lemma others_run_world x w n fuel :
  is_sendmsg x = false -> eintr_prefix w n = true -> (n < fuel)%nat ->
  exists W w',
    run x fuel w = Some (out_res (coming w n), w') /\
    calls_made (wrapped x) (round_lines x) (S n) (errno_left w n) w W /\
    only_logs W w'.
Proof.
  intros Hx Hp Hf.
  destruct x; try discriminate Hx; simpl run; simpl wrapped;
    cbn [round_lines].
  - destruct (simple_loop_world (Read fd len) n w fuel Hp Hf)
      as (W & Hl & Hm).
    eapply after_loop_world; eauto; epilogue_go.
  - destruct (simple_loop_world (Write fd len) n w fuel Hp Hf)
      as (W & Hl & Hm).
    eapply after_loop_world; eauto; epilogue_go.
  - destruct (simple_loop_world (Recv fd len flags) n w fuel Hp Hf)
      as (W & Hl & Hm).
    eapply after_loop_world; eauto; epilogue_go.
  - destruct (simple_loop_world (Send fd len flags) n w fuel Hp Hf)
      as (W & Hl & Hm).
    eapply after_loop_world; eauto; epilogue_go.
  - destruct (close_loop_world fd n w fuel Hp Hf) as (W & Hl & Hm).
    eapply after_loop_world; eauto; epilogue_go.
  - destruct (simple_loop_world (Connect fd sa) n w fuel Hp Hf)
      as (W & Hl & Hm).
    eapply after_loop_world; eauto; epilogue_go.
  - destruct (accept_loop_world fd sa n w fuel Hp Hf) as (W & Hl & Hm).
    assert (exists W0 w',
      safe_accept fuel fd sa w =
        Some ((out_res (coming w n), accept_writes (coming w) (S n) sa),
              w') /\
      calls_made (Accept fd) [] (S n) (errno_left w n) w W0 /\
      only_logs W0 w')
      as (W0 & w' & E & ? & ?)
      by (eapply after_loop_world; eauto; epilogue_go).
    exists W0, w'. split; [|split; assumption].
    now rewrite (bind_eq _ _ _ _ _ E).
  - destruct (simple_loop_world (Recvmsg fd flags) n w fuel Hp Hf)
      as (W & Hl & Hm).
    eapply after_loop_world; eauto; epilogue_go.
Qed.

(** ** No limit on the retries after [EINTR] *)

Lemma sendmsg_loop_forever fd msg flags fuel : forall count w,
  (forall i, is_eintr (coming w i) = true) ->
  goto_loop fuel (sendmsg_body fd msg flags) count w = None.
Proof.
  induction fuel; intros count w H; [reflexivity|].
  rewrite goto_loop_S, sendmsg_round_eintr
    by (rewrite <- coming_0; apply H).
  apply IHfuel. intros i. rewrite coming_sys_world. apply H.
Qed.

(** X1.  No wrapper ever gives up on [EINTR]: as long as the system call
    keeps failing with [EINTR] the wrapper keeps calling it, so when every
    outcome to come is an [EINTR] failure no number of rounds makes it
    return.  This holds for [safe_sendmsg] too, whose count of retries
    concerns [EMSGSIZE] only. *)
Theorem endless_eintr_never_returns x w fuel :
  (forall i, is_eintr (coming w i) = true) -> run x fuel w = None.
Proof.
  intros H. destruct x; simpl run.
  - apply bind_none.
    exact (loop_forever unit Z _ (fun _ w => (tt, sys_world _ w))
             (fun _ w => out_res (next_out w)) _ []
             (fun s w => simple_round (Read fd len) s w)
             (fun _ w => sys_world_made _ w) fuel tt w H).
  - apply bind_none.
    exact (loop_forever unit Z _ (fun _ w => (tt, sys_world _ w))
             (fun _ w => out_res (next_out w)) _ []
             (fun s w => simple_round (Write fd len) s w)
             (fun _ w => sys_world_made _ w) fuel tt w H).
  - apply bind_none.
    exact (loop_forever unit Z _ (fun _ w => (tt, sys_world _ w))
             (fun _ w => out_res (next_out w)) _ []
             (fun s w => simple_round (Recv fd len flags) s w)
             (fun _ w => sys_world_made _ w) fuel tt w H).
  - apply bind_none.
    exact (loop_forever unit Z _ (fun _ w => (tt, sys_world _ w))
             (fun _ w => out_res (next_out w)) _ []
             (fun s w => simple_round (Send fd len flags) s w)
             (fun _ w => sys_world_made _ w) fuel tt w H).
  - apply bind_none.
    exact (loop_forever unit Z _
             (fun _ w =>
                (tt, if WIN32
                     then sys_world (Closesocket fd)
                            (add_log (mkLog LogDebug "closesocket(%d)"
                                        [ArgInt fd]) w)
                     else sys_world (Close fd) w))
             (fun _ w => out_res (next_out w)) _ _
             (fun s w => close_round fd s w)
             (fun _ w => close_world_made fd w) fuel tt w H).
  - apply bind_none.
    exact (loop_forever unit Z _ (fun _ w => (tt, sys_world _ w))
             (fun _ w => out_res (next_out w)) _ []
             (fun s w => simple_round (Connect fd sa) s w)
             (fun _ w => sys_world_made _ w) fuel tt w H).
  - apply bind_none. apply bind_none.
    exact (loop_forever sockaddr (Z * sockaddr) _
             (fun sa w => (peer sa w, sys_world (Accept fd) w))
             (fun sa w => (out_res (next_out w), peer sa w)) _ []
             (fun sa w => accept_round fd sa w)
             (fun _ w => sys_world_made _ w) fuel sa w H).
  - apply bind_none.
    exact (loop_forever unit Z _ (fun _ w => (tt, sys_world _ w))
             (fun _ w => out_res (next_out w)) _ []
             (fun s w => simple_round (Recvmsg fd flags) s w)
             (fun _ w => sys_world_made _ w) fuel tt w H).
  - rewrite safe_sendmsg_unfold. apply bind_none.
    now apply sendmsg_loop_forever.
Qed.

(** ** [errno] after a success *)

(** X2.  The wrappers other than [safe_sendmsg] never restore [errno]:
    when the call succeeds at once, [errno] is what it was before the
    wrapper was called; when it succeeds after one or more interruptions,
    the wrapper returns the success with [EINTR] left in [errno]. *)
Theorem success_after_eintr_leaves_eintr x w n fuel :
  is_sendmsg x = false -> eintr_prefix w n = true -> (n < fuel)%nat ->
  0 <= out_res (coming w n) ->
  exists w',
    run x fuel w = Some (out_res (coming w n), w') /\
    errno w' = match n with O => errno w | S _ => EINTR end.
Proof.
  intros Hx Hp Hf Hok.
  destruct (others_run_world x w n fuel Hx Hp Hf)
    as (W & w' & E & Hm & (_ & He' & _)).
  exists w'. split; [exact E|].
  destruct Hm as (_ & _ & _ & _ & _ & _ & _ & He).
  rewrite He', He. unfold errno_left, errno_after.
  apply Z.ltb_ge in Hok. now rewrite Hok.
Qed.

(** ** What the wrappers never do *)

(** X3.  Only [safe_sendmsg] sleeps: a call of any other wrapper leaves
    the record of [select] calls as it was, however many times it was
    interrupted, and invokes nothing but its own system call. *)
Theorem only_sendmsg_sleeps x w n fuel :
  is_sendmsg x = false -> eintr_prefix w n = true -> (n < fuel)%nat ->
  exists w',
    run x fuel w = Some (out_res (coming w n), w') /\
    sleeps w' = sleeps w /\
    sys_trace w' = sys_trace w ++ repeat (wrapped x) (S n).
Proof.
  intros Hx Hp Hf.
  destruct (others_run_world x w n fuel Hx Hp Hf)
    as (W & w' & E & Hm & (_ & _ & _ & Ht' & _ & Hs' & _)).
  exists w'. split; [exact E|].
  destruct Hm as (_ & _ & _ & _ & Hs & _ & Ht & _).
  split; congruence.
Qed.

Lemma concat_repeat_one {A} (a : A) n : concat (repeat [a] n) = repeat a n.
Proof. induction n; simpl; congruence. Qed.

(** X4.  [safe_read], [safe_write] and [safe_close] hand nothing to the
    logging module after their loop and do not touch the static buffer.
    [safe_read] and [safe_write] log nothing at all.  [safe_close] logs
    nothing where [WIN32] is not defined; where it is, the label of the
    loop is above the [log_debug] call, so the line
    ["closesocket(%d)"] is logged once for every invocation, [n + 1]
    times after [n] interruptions. *)
Theorem quiet_wrappers_log x w n fuel :
  returns_at_once x = true -> eintr_prefix w n = true -> (n < fuel)%nat ->
  exists w',
    run x fuel w = Some (out_res (coming w n), w') /\
    sa2str_buf w' = sa2str_buf w /\
    log w' =
      log w ++
      match x with
      | W_close fd =>
          if WIN32
          then repeat (mkLog LogDebug "closesocket(%d)" [ArgInt fd]) (S n)
          else []
      | _ => []
      end.
Proof.
  intros Hx Hp Hf. destruct x; try discriminate Hx; simpl run.
  - destruct (simple_loop_world (Read fd len) n w fuel Hp Hf)
      as (W & Hl & (_ & Hb & _ & _ & _ & Hlog & _)).
    exists W. unfold safe_read. rewrite (bind_eq _ _ _ _ _ Hl).
    rewrite concat_repeat_nil in Hlog. auto.
  - destruct (simple_loop_world (Write fd len) n w fuel Hp Hf)
      as (W & Hl & (_ & Hb & _ & _ & _ & Hlog & _)).
    exists W. unfold safe_write. rewrite (bind_eq _ _ _ _ _ Hl).
    rewrite concat_repeat_nil in Hlog. auto.
  - destruct (close_loop_world fd n w fuel Hp Hf)
      as (W & Hl & (_ & Hb & _ & _ & _ & Hlog & _)).
    exists W. unfold safe_close. rewrite (bind_eq _ _ _ _ _ Hl).
    unfold close_lines in Hlog. destruct WIN32.
    + rewrite concat_repeat_one in Hlog. auto.
    + rewrite concat_repeat_nil in Hlog. auto.
Qed.

(** ** The lines of [safe_recv], [safe_send], [safe_accept] and
    [safe_connect] *)

Lemma safe_recv_after_loop fuel fd len flags w res W :
  goto_loop fuel (fun _ : unit =>
    res <- sys (Recv fd len flags) ;;
    again <- c_and (ret (res <? 0)) (errno_is EINTR) ;;
    if again then continue tt else break res) tt w = Some (res, W) ->
  safe_recv fuel fd len flags w =
  Some (res,
        if res <? 0
        then add_log (mkLog LogNoise "safe_recv(%d, %d) = %s"
                        [ArgInt fd; ArgInt len; ArgStrerror (errno W)]) W
        else if cf_verbose W >? 2
        then add_log (mkLog LogNoise "safe_recv(%d, %d) = %d"
                        [ArgInt fd; ArgInt len; ArgInt res]) W
        else W).
Proof.
  intros Hl. unfold safe_recv. rewrite (bind_eq _ _ _ _ _ Hl).
  unfold verbose_gt, strerror_errno, log_noise, log_at, bind, ret,
    get_errno, get_cf_verbose.
  destruct (res <? 0); destruct (cf_verbose W >? 2) eqn:Ev; simpl;
    rewrite ?Ev; reflexivity.
Qed.

Lemma safe_send_after_loop fuel fd len flags w res W :
  goto_loop fuel (fun _ : unit =>
    res <- sys (Send fd len flags) ;;
    again <- c_and (ret (res <? 0)) (errno_is EINTR) ;;
    if again then continue tt else break res) tt w = Some (res, W) ->
  safe_send fuel fd len flags w =
  Some (res,
        if res <? 0
        then add_log (mkLog LogNoise "safe_send(%d, %d) = %s"
                        [ArgInt fd; ArgInt len; ArgStrerror (errno W)]) W
        else if cf_verbose W >? 2
        then add_log (mkLog LogNoise "safe_send(%d, %d) = %d"
                        [ArgInt fd; ArgInt len; ArgInt res]) W
        else W).
Proof.
  intros Hl. unfold safe_send. rewrite (bind_eq _ _ _ _ _ Hl).
  unfold verbose_gt, strerror_errno, log_noise, log_at, bind, ret,
    get_errno, get_cf_verbose.
  destruct (res <? 0); destruct (cf_verbose W >? 2) eqn:Ev; simpl;
    rewrite ?Ev; reflexivity.
Qed.

(** The string found in the static buffer after [sa2str]. *)
Lemma sa2str_store_reads sa buf :
  c_str (sa2str_store sa buf) = firstn 255 (sa2str_text sa).
Proof.
  destruct (sa2str_store_last sa buf) as (rest & ->).
  rewrite c_str_app_NUL. apply c_str_id, firstn_no_NUL, sa2str_text_no_NUL.
Qed.

Lemma errno_left_failure w n :
  out_res (coming w n) < 0 -> errno_left w n = out_errno (coming w n).
Proof.
  intros H. unfold errno_left, errno_after. apply Z.ltb_lt in H.
  now rewrite H.
Qed.

(** X5.  [safe_recv] and [safe_send] hand exactly one line to
    [log_noise] when the call fails for a reason other than [EINTR],
    whatever [cf_verbose] is: the descriptor, the length and
    [strerror] of the reason (the [flags] are not in the line).  A
    success is logged, with the result, only when [cf_verbose > 2]. *)
Theorem recv_send_log_at_noise fd len flags w n fuel :
  eintr_prefix w n = true -> (n < fuel)%nat ->
  (exists w',
     safe_recv fuel fd len flags w = Some (out_res (coming w n), w') /\
     log w' =
       log w ++
       if out_res (coming w n) <? 0
       then [mkLog LogNoise "safe_recv(%d, %d) = %s"
               [ArgInt fd; ArgInt len;
                ArgStrerror (out_errno (coming w n))]]
       else if cf_verbose w >? 2
       then [mkLog LogNoise "safe_recv(%d, %d) = %d"
               [ArgInt fd; ArgInt len; ArgInt (out_res (coming w n))]]
       else []) /\
  (exists w',
     safe_send fuel fd len flags w = Some (out_res (coming w n), w') /\
     log w' =
       log w ++
       if out_res (coming w n) <? 0
       then [mkLog LogNoise "safe_send(%d, %d) = %s"
               [ArgInt fd; ArgInt len;
                ArgStrerror (out_errno (coming w n))]]
       else if cf_verbose w >? 2
       then [mkLog LogNoise "safe_send(%d, %d) = %d"
               [ArgInt fd; ArgInt len; ArgInt (out_res (coming w n))]]
       else []).
Proof.
  intros Hp Hf. split.
  - destruct (simple_loop_world (Recv fd len flags) n w fuel Hp Hf)
      as (W & Hl & (Hv & _ & _ & _ & _ & Hlog & _ & He)).
    rewrite (safe_recv_after_loop _ _ _ _ _ _ _ Hl).
    eexists. split; [reflexivity|].
    rewrite concat_repeat_nil, app_nil_r in Hlog. rewrite Hv, He.
    destruct (out_res (coming w n) <? 0) eqn:Hneg.
    + apply Z.ltb_lt in Hneg. rewrite (errno_left_failure _ _ Hneg).
      simpl. now rewrite Hlog.
    + destruct (cf_verbose w >? 2); simpl; rewrite Hlog;
        [reflexivity|now rewrite app_nil_r].
  - destruct (simple_loop_world (Send fd len flags) n w fuel Hp Hf)
      as (W & Hl & (Hv & _ & _ & _ & _ & Hlog & _ & He)).
    rewrite (safe_send_after_loop _ _ _ _ _ _ _ Hl).
    eexists. split; [reflexivity|].
    rewrite concat_repeat_nil, app_nil_r in Hlog. rewrite Hv, He.
    destruct (out_res (coming w n) <? 0) eqn:Hneg.
    + apply Z.ltb_lt in Hneg. rewrite (errno_left_failure _ _ Hneg).
      simpl. now rewrite Hlog.
    + destruct (cf_verbose w >? 2); simpl; rewrite Hlog;
        [reflexivity|now rewrite app_nil_r].
Qed.

(** X6.  [safe_accept] returns the result of the first call that is not
    interrupted, and the caller's address buffer holds what the calls
    made have written to it, the last write winning.  A failure is
    logged with its reason and leaves the static buffer of [sa2str]
    alone.  A success is logged only when [cf_verbose > 2]; the line then
    carries the rendering of the peer address, and the static buffer
    reads as that rendering afterwards. *)
Theorem accept_reports_the_peer fd sa w n fuel :
  eintr_prefix w n = true -> (n < fuel)%nat ->
  exists w',
    safe_accept fuel fd sa w =
      Some ((out_res (coming w n), accept_writes (coming w) (S n) sa), w') /\
    (out_res (coming w n) < 0 ->
     log w' = log w ++
              [mkLog LogNoise "safe_accept(%d) = %s"
                 [ArgInt fd; ArgStrerror (out_errno (coming w n))]] /\
     sa2str_buf w' = sa2str_buf w) /\
    (0 <= out_res (coming w n) -> 2 < cf_verbose w ->
     log w' = log w ++
              [mkLog LogNoise "safe_accept(%d) = %d (%s)"
                 [ArgInt fd; ArgInt (out_res (coming w n));
                  ArgStr (firstn 255
                            (sa2str_text
                               (accept_writes (coming w) (S n) sa)))]] /\
     c_str (sa2str_buf w') =
       firstn 255 (sa2str_text (accept_writes (coming w) (S n) sa))) /\
    (0 <= out_res (coming w n) -> cf_verbose w <= 2 ->
     log w' = log w /\ sa2str_buf w' = sa2str_buf w).
Proof.
  intros Hp Hf.
  destruct (accept_loop_world fd sa n w fuel Hp Hf)
    as (W & Hl & (Hv & Hb & _ & _ & _ & Hlog & _ & He)).
  rewrite (safe_accept_after_loop _ _ _ _ _ _ Hl).
  eexists. split; [reflexivity|].
  rewrite concat_repeat_nil, app_nil_r in Hlog.
  cbn [fst snd]. rewrite Hv, He.
  split; [|split].
  - intros Hneg. rewrite (errno_left_failure _ _ Hneg).
    apply Z.ltb_lt in Hneg. rewrite Hneg. simpl. now rewrite Hlog.
  - intros Hok Hgt. apply Z.ltb_ge in Hok. rewrite Hok.
    replace (cf_verbose w >? 2) with true
      by (symmetry; rewrite Z.gtb_ltb; now apply Z.ltb_lt).
    simpl. rewrite Hlog, !sa2str_store_reads. auto.
  - intros Hok Hle. apply Z.ltb_ge in Hok. rewrite Hok.
    replace (cf_verbose w >? 2) with false
      by (symmetry; rewrite Z.gtb_ltb; apply Z.ltb_ge; lia).
    auto.
Qed.

(** X7.  A successful [safe_connect] is silent unless [cf_verbose > 2]:
    with [cf_verbose <= 2] it leaves the log and the static buffer of
    [sa2str] as they were; with [cf_verbose > 2] it hands one line with
    the rendering of the address and the result to [log_noise], and the
    static buffer reads as that rendering afterwards. *)
Theorem connect_success_is_logged_when_verbose fd sa w n fuel :
  eintr_prefix w n = true -> (n < fuel)%nat ->
  0 <= out_res (coming w n) ->
  exists w',
    safe_connect fuel fd sa w = Some (out_res (coming w n), w') /\
    (cf_verbose w <= 2 ->
     log w' = log w /\ sa2str_buf w' = sa2str_buf w) /\
    (2 < cf_verbose w ->
     log w' = log w ++
              [mkLog LogNoise "connect(%d, %s) = %d"
                 [ArgInt fd; ArgStr (firstn 255 (sa2str_text sa));
                  ArgInt (out_res (coming w n))]] /\
     c_str (sa2str_buf w') = firstn 255 (sa2str_text sa)).
Proof.
  intros Hp Hf Hok.
  destruct (simple_loop_world (Connect fd sa) n w fuel Hp Hf)
    as (W & Hl & (Hv & Hb & _ & _ & _ & Hlog & _ & He)).
  rewrite (safe_connect_after_loop _ _ _ _ _ _ Hl).
  eexists. split; [reflexivity|].
  rewrite concat_repeat_nil, app_nil_r in Hlog.
  apply Z.ltb_ge in Hok. rewrite Hok, Hv. cbn [andb].
  split.
  - intros Hle.
    replace (cf_verbose w >? 2) with false
      by (symmetry; rewrite Z.gtb_ltb; apply Z.ltb_ge; lia).
    auto.
  - intros Hgt.
    replace (cf_verbose w >? 2) with true
      by (symmetry; rewrite Z.gtb_ltb; now apply Z.ltb_lt).
    simpl. rewrite Hlog, !sa2str_store_reads. auto.
Qed.

(** ** The lines of [safe_sendmsg] *)

Lemma sendmsg_retry_lines_ext fd msg flags n : forall o o' : nat -> outcome,
  (forall i, o i = o' i) ->
  sendmsg_retry_lines fd msg flags o n = sendmsg_retry_lines fd msg flags o' n.
Proof.
  induction n; intros o o' H; simpl; [reflexivity|].
  rewrite H. f_equal. apply IHn. intros i. apply H.
Qed.

Lemma sendmsg_retry_lines_length fd msg flags n : forall o : nat -> outcome,
  List.length (sendmsg_retry_lines fd msg flags o n) =
  (2 * emsg_count o n)%nat.
Proof.
  induction n; intros o; simpl; [reflexivity|].
  rewrite length_app, IHn. destruct (is_emsgsize (o 0%nat)); simpl; lia.
Qed.

Lemma emsgsize_errno o : is_emsgsize o = true -> out_errno o = EMSGSIZE.
Proof.
  unfold is_emsgsize. intros H. apply andb_true_iff in H.
  destruct H as [_ H]. now apply Z.eqb_eq.
Qed.

(** The log of the loop of [safe_sendmsg], entered with [c0] failures
    counted. *)
Lemma sendmsg_loop_log fd msg flags n : forall (c0 : nat) w fuel r W,
  (c0 <= 20)%nat ->
  (forall i, (i < n)%nat -> retried_at c0 (coming w) i = true) ->
  retried_at c0 (coming w) n = false ->
  goto_loop fuel (sendmsg_body fd msg flags) (Z.of_nat c0) w = Some (r, W) ->
  log W =
    log w ++ sendmsg_retry_lines fd msg flags (coming w) n ++
    sendmsg_final_lines fd msg flags (cf_verbose w) (coming w n).
Proof.
  induction n as [|n IH]; intros c0 w fuel r W Hc Hpre Hlast Hl;
    (destruct fuel as [|fuel]; [discriminate Hl|]);
    rewrite goto_loop_S in Hl.
  - unfold retried_at in Hlast. rewrite coming_0 in *.
    apply orb_false_iff in Hlast. destruct Hlast as [En Hw].
    simpl emsg_count in *. rewrite Nat.add_0_r in *.
    assert (Hw' : is_emsgsize (next_out w) && (Z.of_nat c0 <? 20) = false).
    { rewrite <- Hw. f_equal.
      destruct (Nat.ltb_spec c0 20); [apply Z.ltb_lt|apply Z.ltb_ge]; lia. }
    unfold sendmsg_final_lines. simpl sendmsg_retry_lines.
    destruct (out_res (next_out w) <? 0) eqn:Hneg.
    + rewrite (sendmsg_round_fail _ _ _ _ _ En Hneg Hw') in Hl.
      injection Hl as _ <-.
      unfold sys_world, store_errno. rewrite Hneg. reflexivity.
    + rewrite (sendmsg_round_ok _ _ _ _ _ Hneg) in Hl.
      injection Hl as _ <-.
      unfold sys_world, store_errno. rewrite Hneg.
      destruct (cf_verbose w >? 2); simpl; [reflexivity|].
      now rewrite app_nil_r.
  - assert (H0 : retried_at c0 (coming w) 0 = true) by (apply Hpre; lia).
    unfold retried_at in H0. rewrite coming_0 in H0.
    simpl emsg_count in H0. rewrite Nat.add_0_r in H0.
    set (b := if is_emsgsize (coming w 0) then 1%nat else 0%nat).
    assert (Hstep : exists w1,
      sendmsg_body fd msg flags (Z.of_nat c0) w =
        Some (inl (Z.of_nat (c0 + b)), w1) /\
      (forall i, coming w1 i = coming w (S i)) /\
      (c0 + b <= 20)%nat /\
      cf_verbose w1 = cf_verbose w /\
      log w1 =
        log w ++
        if is_emsgsize (coming w 0)
        then [sendmsg_failure_line fd msg flags EMSGSIZE; sleep_line]
        else []).
    { subst b. rewrite coming_0.
      destruct (is_eintr (next_out w)) eqn:En.
      - rewrite (eintr_not_emsgsize _ En), Nat.add_0_r.
        rewrite (sendmsg_round_eintr _ _ _ _ _ En).
        eexists. split; [reflexivity|].
        split; [apply coming_sys_world|].
        split; [assumption|].
        destruct (only_sys_world (Sendmsg fd msg flags) w)
          as (? & _ & _ & _ & _ & Hlog).
        split; [assumption|]. now rewrite app_nil_r.
      - simpl in H0. apply andb_true_iff in H0. destruct H0 as [Em Hlt].
        rewrite Em. apply Nat.ltb_lt in Hlt.
        rewrite sendmsg_round_emsg by (auto; apply Z.ltb_lt; lia).
        replace (Z.of_nat c0 + 1) with (Z.of_nat (c0 + 1)) by lia.
        eexists. split; [reflexivity|].
        split; [apply coming_emsg_round|].
        split; [lia|].
        destruct (emsg_round_facts fd msg flags w)
          as (_ & _ & Hv & _ & _ & _ & Hlog).
        split; [exact Hv|]. now rewrite Hlog, (emsgsize_errno _ Em). }
    destruct Hstep as (w1 & Hb & Hc1 & Hle & Hv1 & Hlog1).
    rewrite Hb in Hl.
    rewrite (IH (c0 + b)%nat w1 fuel r W Hle).
    + rewrite Hlog1, Hv1, Hc1, <- !app_assoc. simpl sendmsg_retry_lines.
      rewrite <- app_assoc. do 3 f_equal.
      apply sendmsg_retry_lines_ext. exact Hc1.
    + intros i Hi. subst b. rewrite (retried_at_shift c0 (coming w)); auto.
      apply Hpre. lia.
    + subst b. now rewrite (retried_at_shift c0 (coming w)).
    + exact Hl.
Qed.

(** X8.  What [safe_sendmsg] has logged and slept when it returns, for
    any mix of [EINTR] and [EMSGSIZE] failures before the outcome it
    returns: two warnings, the failure and ["trying to sleep a bit"], and
    one sleep of a second for every [EMSGSIZE] failure it retried, nothing
    for an [EINTR] failure, and at most 20 sleeps; then one warning if the
    outcome returned is a failure, one [log_noise] line if it is a
    success and [cf_verbose > 2], and nothing otherwise. *)
Theorem sendmsg_log_and_sleeps fd msg flags w n fuel :
  sendmsg_prefix w n = true -> (n < fuel)%nat ->
  exists w',
    safe_sendmsg fuel fd msg flags w = Some (out_res (coming w n), w') /\
    log w' =
      log w ++ sendmsg_retry_lines fd msg flags (coming w) n ++
      sendmsg_final_lines fd msg flags (cf_verbose w) (coming w n) /\
    List.length (sendmsg_retry_lines fd msg flags (coming w) n) =
      (2 * emsg_count (coming w) n)%nat /\
    sleeps w' = sleeps w ++ repeat (mkTimeval 1 0) (emsg_count (coming w) n) /\
    (emsg_count (coming w) n <= 20)%nat.
Proof.
  intros Hp Hf.
  pose proof (proj1 (sendmsg_prefix_spec w n) Hp) as [Hpre Hlast].
  destruct (sendmsg_loop fd msg flags n 0 w fuel ltac:(lia) Hpre Hlast Hf)
    as (W & Hl & _ & Hs & Hn & _).
  exists W. rewrite safe_sendmsg_unfold.
  change (Z.of_nat 0) with 0 in Hl. rewrite (bind_eq _ _ _ _ _ Hl).
  split; [reflexivity|].
  split; [exact (sendmsg_loop_log fd msg flags n 0 w fuel _ W
                   ltac:(lia) Hpre Hlast Hl)|].
  split; [apply sendmsg_retry_lines_length|].
  split; [exact Hs|exact Hn].
Qed.

(** ** [sa2str] and its static buffer *)

(** X9.  The path of an [AF_UNIX] address is rendered whole: when
    [sun_path] holds a NUL-terminated string of at most 250 characters
    (the field of [struct sockaddr_un] is far shorter), [sa2str] returns
    ["unix:"] followed by the path, nothing cut, and the static buffer
    reads as that string.  Without a NUL in [sun_path] the [%s] of the
    source would read past the field, which the embedding does not
    follow. *)
Theorem sa2str_unix_path_is_whole sa w :
  sa_family sa = AF_UNIX ->
  In NUL (sun_path sa) ->
  (List.length (c_str (sun_path sa)) <= 250)%nat ->
  exists w',
    sa2str sa w =
      Some (list_ascii_of_string "unix:" ++ c_str (sun_path sa), w') /\
    c_str (sa2str_buf w') =
      list_ascii_of_string "unix:" ++ c_str (sun_path sa).
Proof.
  intros Hf _ Hlen. destruct (sa2str_result sa w) as (w' & E & Hb).
  assert (Ht : firstn 255 (sa2str_text sa) =
               list_ascii_of_string "unix:" ++ c_str (sun_path sa)).
  { unfold sa2str_text. rewrite Hf, Z.eqb_refl.
    apply firstn_all2. rewrite length_app. simpl. lia. }
  exists w'. rewrite <- Ht. split; [exact E|].
  rewrite Hb. apply sa2str_store_reads.
Qed.
End Facts.


(** [safe_read] on Linux with two interruptions before 7 bytes arrive. *)
Lemma eintr_is_invisible_witness :
  exists w',
    run (P := linux) (W_read 3 16) 5
      (script_world 0 [failure 4; failure 4; success 7] (failure 4))
    = Some (7, w') /\
    sys_trace w' = [Read 3 16; Read 3 16; Read 3 16] /\
    (7 < 0 -> errno w' = 0 /\ errno w' <> 4).
Proof.
  exact (proj1 (eintr_is_invisible (P := linux)) (W_read 3 16) eq_refl
           (script_world 0 [failure 4; failure 4; success 7] (failure 4))
           2%nat 5%nat eq_refl ltac:(lia)).
Defined.

(** C1 as stated fails for [safe_sendmsg]: on Linux, with an [EMSGSIZE]
    failure followed by a success, the first result that is not an
    [EINTR] failure is -1 and the wrapper returns 5. *)
Lemma sendmsg_does_not_return_first_non_eintr :
  ~ (forall x, returns_first_non_eintr (P := linux) x).
Proof.
  intros H.
  destruct (H (W_sendmsg 3 (mkMsghdr 5 0) 0)
              (script_world 0 [failure 90; success 5] (failure 4))
              0%nat 5%nat eq_refl ltac:(lia)) as (w' & E & _).
  vm_compute in E. discriminate E.
Qed.

(** [safe_sendmsg] on macOS: three [EMSGSIZE] failures and a success. *)
Lemma sendmsg_emsgsize_retries_witness :
  exists w',
    safe_sendmsg (P := darwin) 10 3 (mkMsghdr 5 16) 0
      (script_world 0 [failure 40; failure 40; failure 40; success 5]
                    (failure 4))
    = Some (5, w') /\
    sys_trace w' = repeat (Sendmsg 3 (mkMsghdr 5 16) 0) 4 /\
    sleeps w' = repeat (mkTimeval 1 0) 3.
Proof.
  exact (proj1 (sendmsg_emsgsize_retries (P := darwin) 3 (mkMsghdr 5 16) 0)
           (script_world 0 [failure 40; failure 40; failure 40; success 5]
                         (failure 4))
           3%nat 10%nat eq_refl ltac:(lia) ltac:(discriminate) ltac:(lia)).
Defined.

(** Twenty-one [EMSGSIZE] failures on macOS: the last one is returned. *)
Example sendmsg_gives_up_after_20 :
  exists w',
    safe_sendmsg (P := darwin) 30 3 (mkMsghdr 5 16) 0
      (script_world 0 (repeat (failure 40) 21) (success 5))
    = Some (-1, w') /\
    errno w' = 40 /\ List.length (sys_trace w') = 21%nat /\
    List.length (sleeps w') = 20%nat.
Proof. vm_compute. eexists. repeat split. Qed.

(** [safe_connect] on Linux, interrupted once, then [EINPROGRESS], with
    the default verbosity: no line is logged. *)
Lemma connect_einprogress_is_quiet_witness :
  exists w',
    safe_connect (P := linux) 5 3 (mkSockaddr 1 (Byte.x00, Byte.x00)
                    (Byte.x00, Byte.x00, Byte.x00, Byte.x00)
                    (list_ascii_of_string "/tmp/sock"))
      (script_world 0 [failure 4; failure 115] (failure 4))
    = Some (-1, w') /\
    errno w' = 115 /\
    (115 = 115 -> 0 <= 2 -> log w' = []) /\
    (115 <> 115 \/ 2 < 0 ->
     exists s,
       log w' = [] ++
                [mkLog LogNoise "connect(%d, %s) = %s"
                   [ArgInt 3; ArgStr s; ArgStrerror 115]]).
Proof.
  exact (connect_einprogress_is_quiet (P := linux) 3
           (mkSockaddr 1 (Byte.x00, Byte.x00)
              (Byte.x00, Byte.x00, Byte.x00, Byte.x00)
              (list_ascii_of_string "/tmp/sock"))
           (script_world 0 [failure 4; failure 115] (failure 4))
           1%nat 5%nat eq_refl ltac:(lia) eq_refl).
Defined.

(** The same failure with [cf_verbose = 3] is logged. *)
Example connect_einprogress_is_logged_when_verbose :
  exists w' s,
    safe_connect (P := linux) 5 3 (mkSockaddr 1 (Byte.x00, Byte.x00)
                    (Byte.x00, Byte.x00, Byte.x00, Byte.x00)
                    (list_ascii_of_string "/tmp/sock"))
      (script_world 3 [failure 4; failure 115] (failure 4))
    = Some (-1, w') /\
    log w' = [mkLog LogNoise "connect(%d, %s) = %s"
                [ArgInt 3; ArgStr s; ArgStrerror 115]].
Proof. vm_compute. eexists. eexists. split; reflexivity. Qed.

(** [safe_recvmsg] on Linux with verbosity 0: a failure with [ECONNRESET]
    (104) is logged as a warning. *)
Lemma recvmsg_failures_are_always_logged_witness :
  exists w',
    safe_recvmsg (P := linux) 5 3 0
      (script_world 0 [failure 4; failure 104] (failure 4))
    = Some (-1, w') /\
    (-1 < 0 ->
     log w' = [] ++
              [mkLog LogWarning "safe_recvmsg(%d, msg, %d) = %s"
                 [ArgInt 3; ArgInt 0; ArgStrerror 104]]) /\
    (0 <= -1 -> 2 < 0 ->
     log w' = [] ++
              [mkLog LogNoise "safe_recvmsg(%d, msg, %d) = %d"
                 [ArgInt 3; ArgInt 0; ArgInt (-1)]]) /\
    (0 <= -1 -> 0 <= 2 -> log w' = []).
Proof.
  exact (recvmsg_failures_are_always_logged (P := linux) 3 0
           (script_world 0 [failure 4; failure 104] (failure 4))
           1%nat 5%nat eq_refl ltac:(lia)).
Defined.











(** 192.0.2.1, port 443, on Linux: the text of the address is
    ["192.0.2.1:443"] and [sa2str] returns the placeholder. *)
Lemma sa2str_ipv4_is_overwritten_witness :
  ipv4_text example_ipv4 = list_ascii_of_string "192.0.2.1:443" /\
  exists w',
    sa2str (P := linux) example_ipv4 (script_world 0 [] (failure 4)) =
      Some (list_ascii_of_string "sa2str: unknown proto", w') /\
    list_ascii_of_string "sa2str: unknown proto" <> ipv4_text example_ipv4.
Proof.
  split; [reflexivity|].
  exact (sa2str_ipv4_is_overwritten (P := linux) example_ipv4
           (script_world 0 [] (failure 4)) eq_refl).
Defined.

(** The path [/tmp/sock] is rendered as ["unix:/tmp/sock"]. *)
Example sa2str_unix_example :
  exists w',
    sa2str (P := linux) example_unix (script_world 0 [] (failure 4)) =
    Some (list_ascii_of_string "unix:/tmp/sock", w').
Proof. eexists. vm_compute. reflexivity. Qed.

(** [sa2str] on a path of 300 characters, from the zeroed buffer. *)
Lemma sa2str_fits_its_buffer_witness :
  exists s w',
    sa2str (P := linux)
      (mkSockaddr 1 (Byte.x00, Byte.x00)
         (Byte.x00, Byte.x00, Byte.x00, Byte.x00) (repeat "a"%char 300))
      (script_world 0 [] (failure 4)) = Some (s, w') /\
    s = list_ascii_of_string "unix:" ++ repeat "a"%char 250 /\
    (List.length s <= 255)%nat /\
    List.length (sa2str_buf w') = 256%nat /\
    firstn (List.length s) (sa2str_buf w') = s /\
    nth_error (sa2str_buf w') (List.length s) = Some NUL.
Proof.
  exact (sa2str_fits_its_buffer (P := linux)
           (mkSockaddr 1 (Byte.x00, Byte.x00)
              (Byte.x00, Byte.x00, Byte.x00, Byte.x00) (repeat "a"%char 300))
           (script_world 0 [] (failure 4)) eq_refl).
Defined.


(** ** The further properties on examples *)

(** [safe_sendmsg] on Linux when [sendmsg] is interrupted for ever. *)
Lemma endless_eintr_never_returns_witness :
  run (P := linux) (W_sendmsg 3 (mkMsghdr 5 0) 0) 50
    (script_world 0 [] (failure 4)) = None.
Proof.
  apply (endless_eintr_never_returns (P := linux)).
  intros i. unfold coming. simpl. now destruct (i + 0)%nat.
Defined.

(** [safe_read] on Linux, interrupted once before 7 bytes arrive: 7 is
    returned and [errno] is [EINTR]. *)
Lemma success_after_eintr_leaves_eintr_witness :
  exists w',
    run (P := linux) (W_read 3 16) 5
      (script_world 0 [failure 4; success 7] (failure 4))
    = Some (7, w') /\
    errno w' = 4.
Proof.
  exact (success_after_eintr_leaves_eintr (P := linux) (W_read 3 16)
           (script_world 0 [failure 4; success 7] (failure 4))
           1%nat 5%nat eq_refl eq_refl ltac:(lia) ltac:(discriminate)).
Defined.

(** [safe_recv] on Linux, interrupted twice. *)
Lemma only_sendmsg_sleeps_witness :
  exists w',
    run (P := linux) (W_recv 3 16 0) 5
      (script_world 0 [failure 4; failure 4; success 7] (failure 4))
    = Some (7, w') /\
    sleeps w' = [] /\
    sys_trace w' = [Recv 3 16 0; Recv 3 16 0; Recv 3 16 0].
Proof.
  exact (only_sendmsg_sleeps (P := linux) (W_recv 3 16 0)
           (script_world 0 [failure 4; failure 4; success 7] (failure 4))
           2%nat 5%nat eq_refl eq_refl ltac:(lia)).
Defined.

(** [safe_close] on Linux, interrupted once, with the highest verbosity:
    nothing is logged. *)
Lemma quiet_wrappers_log_witness :
  exists w',
    run (P := linux) (W_close 3) 5
      (script_world 3 [failure 4; success 0] (failure 4))
    = Some (0, w') /\
    sa2str_buf w' = repeat NUL sizeof_buf /\
    log w' = [].
Proof.
  exact (quiet_wrappers_log (P := linux) (W_close 3)
           (script_world 3 [failure 4; success 0] (failure 4))
           1%nat 5%nat eq_refl eq_refl ltac:(lia)).
Defined.

(** [safe_recv] and [safe_send] on Linux with the default verbosity,
    interrupted once and then failing with [ECONNRESET] (104). *)
Lemma recv_send_log_at_noise_witness :
  (exists w',
     safe_recv (P := linux) 5 3 16 0
       (script_world 0 [failure 4; failure 104] (failure 4))
     = Some (-1, w') /\
     log w' = [mkLog LogNoise "safe_recv(%d, %d) = %s"
                 [ArgInt 3; ArgInt 16; ArgStrerror 104]]) /\
  (exists w',
     safe_send (P := linux) 5 3 16 0
       (script_world 0 [failure 4; failure 104] (failure 4))
     = Some (-1, w') /\
     log w' = [mkLog LogNoise "safe_send(%d, %d) = %s"
                 [ArgInt 3; ArgInt 16; ArgStrerror 104]]).
Proof.
  exact (recv_send_log_at_noise (P := linux) 3 16 0
           (script_world 0 [failure 4; failure 104] (failure 4))
           1%nat 5%nat eq_refl ltac:(lia)).
Defined.

(** [safe_accept] on Linux with [cf_verbose] 3: the first call is
    interrupted, the second returns descriptor 9 for the peer
    [/tmp/sock]. *)
Lemma accept_reports_the_peer_witness :
  exists w',
    safe_accept (P := linux) 5 3 example_ipv4
      (script_world 3
         [failure 4; mkOutcome 9 0 (Some example_unix)] (failure 4))
    = Some ((9, example_unix), w') /\
    log w' = [mkLog LogNoise "safe_accept(%d) = %d (%s)"
                [ArgInt 3; ArgInt 9;
                 ArgStr (list_ascii_of_string "unix:/tmp/sock")]] /\
    c_str (sa2str_buf w') = list_ascii_of_string "unix:/tmp/sock".
Proof.
  destruct (accept_reports_the_peer (P := linux) 3 example_ipv4
              (script_world 3
                 [failure 4; mkOutcome 9 0 (Some example_unix)] (failure 4))
              1%nat 5%nat eq_refl ltac:(lia))
    as (w' & E & _ & H & _).
  exists w'. split; [exact E|].
  exact (H ltac:(discriminate) ltac:(simpl; lia)).
Defined.

(** [safe_connect] to [/tmp/sock] on Linux, successful at once: silent
    with the default verbosity. *)
Lemma connect_success_is_logged_when_verbose_witness :
  exists w',
    safe_connect (P := linux) 5 3 example_unix
      (script_world 0 [success 0] (failure 4))
    = Some (0, w') /\
    log w' = [] /\ sa2str_buf w' = repeat NUL sizeof_buf.
Proof.
  destruct (connect_success_is_logged_when_verbose (P := linux) 3
              example_unix (script_world 0 [success 0] (failure 4))
              0%nat 5%nat eq_refl ltac:(lia) ltac:(discriminate))
    as (w' & E & H & _).
  exists w'. split; [exact E|].
  exact (H ltac:(simpl; lia)).
Defined.

(** [safe_sendmsg] on macOS: an interruption, an [EMSGSIZE] failure and a
    success, with the default verbosity. *)
Lemma sendmsg_log_and_sleeps_witness :
  exists w',
    safe_sendmsg (P := darwin) 10 3 (mkMsghdr 5 16) 0
      (script_world 0 [failure 4; failure 40; success 5] (failure 4))
    = Some (5, w') /\
    log w' = [sendmsg_failure_line 3 (mkMsghdr 5 16) 0 40; sleep_line] /\
    sleeps w' = [mkTimeval 1 0].
Proof.
  destruct (sendmsg_log_and_sleeps (P := darwin) 3 (mkMsghdr 5 16) 0
              (script_world 0 [failure 4; failure 40; success 5] (failure 4))
              2%nat 10%nat eq_refl ltac:(lia))
    as (w' & E & Hl & _ & Hs & _).
  exists w'. split; [exact E|]. split; [exact Hl|exact Hs].
Defined.

(** The address [/tmp/sock], NUL-terminated in [sun_path], on Linux. *)
Lemma sa2str_unix_path_is_whole_witness :
  exists w',
    sa2str (P := linux)
      (mkSockaddr 1 (Byte.x00, Byte.x00)
         (Byte.x00, Byte.x00, Byte.x00, Byte.x00)
         (list_ascii_of_string "/tmp/sock" ++ [NUL]))
      (script_world 0 [] (failure 4)) =
      Some (list_ascii_of_string "unix:/tmp/sock", w') /\
    c_str (sa2str_buf w') = list_ascii_of_string "unix:/tmp/sock".
Proof.
  exact (sa2str_unix_path_is_whole (P := linux)
           (mkSockaddr 1 (Byte.x00, Byte.x00)
              (Byte.x00, Byte.x00, Byte.x00, Byte.x00)
              (list_ascii_of_string "/tmp/sock" ++ [NUL]))
           (script_world 0 [] (failure 4)) eq_refl
           (in_elt NUL (list_ascii_of_string "/tmp/sock") [])
           ltac:(simpl; lia)).
Defined.
End SafeIOFacts.

(** * Properties of socket.c *)

Module SocketFacts.
Import Socket.
Local Open Scope kprog_scope.

(** ** Flag words *)

Ltac bitwise :=
  apply Z.bits_inj'; intros n Hn;
  repeat first [rewrite Z.lor_spec | rewrite Z.land_spec
               | rewrite Z.lnot_spec by assumption | rewrite Z.bits_0 ].

Lemma land_testbit x m n :
  Z.land x m = x -> Z.testbit x n = true -> Z.testbit m n = true.
Proof.
  intros H Hx. rewrite <- H, Z.land_spec in Hx.
  now apply andb_true_iff in Hx.
Qed.

(** [F_SETFL] with a word that differs from the current flags only in a
    settable flag stores that word. *)
Lemma setfl_lor f x m :
  Z.land x m = x ->
  Z.lor (Z.land (Z.lor f x) m) (Z.land f (Z.lnot m)) = Z.lor f x.
Proof.
  intros H. bitwise.
  pose proof (land_testbit x m n H).
  destruct (Z.testbit f n), (Z.testbit x n), (Z.testbit m n); simpl; auto;
    specialize (H0 eq_refl); discriminate H0.
Qed.

Lemma setfl_land_lnot f x m :
  Z.land x m = x ->
  Z.lor (Z.land (Z.land f (Z.lnot x)) m) (Z.land f (Z.lnot m)) =
  Z.land f (Z.lnot x).
Proof.
  intros H. bitwise.
  pose proof (land_testbit x m n H).
  destruct (Z.testbit f n), (Z.testbit x n), (Z.testbit m n); simpl; auto;
    specialize (H0 eq_refl); discriminate H0.
Qed.

Lemma lor_land_same f x : Z.land (Z.lor f x) x = x.
Proof.
  bitwise. destruct (Z.testbit f n), (Z.testbit x n); reflexivity.
Qed.

Lemma land_lnot_land_same f x : Z.land (Z.land f (Z.lnot x)) x = 0.
Proof.
  bitwise. destruct (Z.testbit f n), (Z.testbit x n); reflexivity.
Qed.

Lemma lor_land_lnot f x : Z.land f x = 0 -> Z.land (Z.lor f x) (Z.lnot x) = f.
Proof.
  intros H. bitwise.
  assert (Hb : Z.testbit f n && Z.testbit x n = false)
    by now rewrite <- Z.land_spec, H, Z.bits_0.
  destruct (Z.testbit f n), (Z.testbit x n); simpl in *; auto.
Qed.

Section Facts.
Context {P : Platform}.

(** The flags [F_SETFL] leaves after [socket_set_nonblocking] has read
    [fl]. *)
Lemma setfl_nonblock fl (non_block : bool) :
  Z.lor (Z.land (if non_block then Z.lor fl O_NONBLOCK
                 else Z.land fl (Z.lnot O_NONBLOCK)) SETFL_MASK)
        (Z.land fl (Z.lnot SETFL_MASK)) =
  if non_block then Z.lor fl O_NONBLOCK else Z.land fl (Z.lnot O_NONBLOCK).
Proof.
  destruct non_block.
  - apply setfl_lor, O_NONBLOCK_settable.
  - apply setfl_land_lnot, O_NONBLOCK_settable.
Qed.

Lemma nonblock_bit fl (non_block : bool) :
  negb (Z.land (if non_block then Z.lor fl O_NONBLOCK
                else Z.land fl (Z.lnot O_NONBLOCK)) O_NONBLOCK =? 0)
  = non_block.
Proof.
  destruct non_block.
  - rewrite lor_land_same. apply negb_true_iff, Z.eqb_neq.
    pose proof O_NONBLOCK_pos. lia.
  - now rewrite land_lnot_land_same.
Qed.

Lemma cloexec_bit : negb (Z.land FD_CLOEXEC FD_CLOEXEC =? 0) = true.
Proof.
  rewrite Z.land_diag. apply negb_true_iff, Z.eqb_neq.
  pose proof FD_CLOEXEC_pos. lia.
Qed.

(** ** [socket_set_nonblocking], case by case *)

(** The flag word the function computes from the flags it has read. *)
Lemma set_nonblocking_run fd (non_block : bool) k :
  let flags d := if non_block then Z.lor (fl_flags d) O_NONBLOCK
                 else Z.land (fl_flags d) (Z.lnot O_NONBLOCK) in
  socket_set_nonblocking fd non_block k =
  match fds k !! fd with
  | None =>
      (false, mkKernel (fds k) (fault k) (trace k ++ [(F_GETFL fd 0, -1)]))
  | Some d =>
      if fault k (List.length (trace k)) then
        (false, mkKernel (fds k) (fault k) (trace k ++ [(F_GETFL fd 0, -1)]))
      else if fl_flags d <? 0 then
        (false, mkKernel (<[fd := d]> (fds k)) (fault k)
                  (trace k ++ [(F_GETFL fd 0, fl_flags d)]))
      else if fault k (S (List.length (trace k))) then
        (false, mkKernel (<[fd := d]> (fds k)) (fault k)
                  (trace k ++ [(F_GETFL fd 0, fl_flags d);
                               (F_SETFL fd (flags d), -1)]))
      else
        (true, mkKernel
                 (<[fd := mkFdesc (fd_flags d) (flags d) (so_nosigpipe d)]>
                    (fds k))
                 (fault k)
                 (trace k ++ [(F_GETFL fd 0, fl_flags d);
                              (F_SETFL fd (flags d), 0)]))
  end.
Proof.
  unfold socket_set_nonblocking, fcntl_getfl, fcntl_setfl, syscall, kbind,
    kret.
  destruct (fds k !! fd) as [d|] eqn:Hd; [|reflexivity].
  destruct (fault k (List.length (trace k))); [reflexivity|].
  destruct (fl_flags d <? 0); [reflexivity|]. simpl.
  rewrite lookup_insert_eq, length_app, Nat.add_1_r. simpl.
  destruct (fault k (S (List.length (trace k)))); simpl;
    rewrite <- app_assoc; [reflexivity|].
  now rewrite setfl_nonblock, insert_insert_eq.
Qed.

Lemma set_nonblocking_true fd (non_block : bool) k k' :
  socket_set_nonblocking fd non_block k = (true, k') ->
  exists d,
    fds k !! fd = Some d /\ 0 <= fl_flags d /\
    fds k' =
      <[fd := mkFdesc (fd_flags d)
                (if non_block then Z.lor (fl_flags d) O_NONBLOCK
                 else Z.land (fl_flags d) (Z.lnot O_NONBLOCK))
                (so_nosigpipe d)]> (fds k).
Proof.
  rewrite set_nonblocking_run.
  destruct (fds k !! fd) as [d|]; [|discriminate].
  destruct (fault k (List.length (trace k))); [discriminate|].
  destruct (fl_flags d <? 0) eqn:Hfl; [discriminate|].
  destruct (fault k (S (List.length (trace k)))); [discriminate|].
  intros H. injection H as <-. exists d. apply Z.ltb_ge in Hfl. auto.
Qed.

(** ** The two helpers *)

(** C5.  After a successful [socket_set_nonblocking(fd, true)] the
    descriptor is non-blocking; after a successful
    [socket_set_nonblocking(fd, false)] that follows it, its non-blocking
    flag is clear, and if the descriptor was blocking before the two calls
    the table of descriptors is what it was. *)
Theorem set_nonblocking_round_trip fd k k1 k2 :
  socket_set_nonblocking fd true k = (true, k1) ->
  socket_set_nonblocking fd false k1 = (true, k2) ->
  is_nonblocking k1 fd = true /\
  is_nonblocking k2 fd = false /\
  (is_nonblocking k fd = false -> fds k2 = fds k).
Proof.
  intros H1 H2.
  destruct (set_nonblocking_true _ _ _ _ H1) as (d & Hd & _ & E1).
  destruct (set_nonblocking_true _ _ _ _ H2) as (d1 & Hd1 & _ & E2).
  rewrite E1, lookup_insert_eq in Hd1. injection Hd1 as <-.
  simpl in E2. rewrite E1, insert_insert_eq in E2.
  unfold is_nonblocking. rewrite E1, E2, Hd, !lookup_insert_eq. simpl.
  split; [apply (nonblock_bit _ true)|].
  split; [apply (nonblock_bit _ false)|].
  intros Hb. apply negb_false_iff, Z.eqb_eq in Hb.
  rewrite (lor_land_lnot _ _ Hb). apply insert_id.
  now destruct d.
Qed.

(** One outcome of the case analysis of [socket_setup]: the calls that
    went through and the one that did not are known. *)
Ltac setup_leaf E :=
  cbn [fds fault trace fd_flags fl_flags so_nosigpipe Z.ltb Z.compare negb]
    in E;
  injection E as <- <-;
  cbn [fst snd fds trace app combine List.length];
  split;
  [ let Hall := fresh "Hall" in
    intros Hall;
    try (pose proof (Hall 0%nat ltac:(simpl; lia)));
    try (pose proof (Hall 1%nat ltac:(simpl; lia)));
    try (pose proof (Hall 2%nat ltac:(simpl; lia)));
    try (pose proof (Hall 3%nat ltac:(simpl; lia)));
    rewrite ?Nat.add_succ_r, ?Nat.add_0_r in *;
    first
      [ congruence
      | split; [reflexivity|];
        split; [rewrite <- ?app_assoc; reflexivity|];
        unfold is_cloexec, is_nonblocking; cbn [fds];
        rewrite ?lookup_insert_eq; cbn [fd_flags fl_flags];
        split; [apply cloexec_bit|apply nonblock_bit] ]
  | let j := fresh "j" in
    let Hj := fresh "Hj" in
    let Hb := fresh "Hb" in
    let Hfail := fresh "Hfail" in
    intros j Hj Hb Hfail;
    destruct j as [|[|[|[|j]]]]; cbn [List.length] in Hj; try lia;
    try (pose proof (Hb 0%nat ltac:(lia)));
    try (pose proof (Hb 1%nat ltac:(lia)));
    try (pose proof (Hb 2%nat ltac:(lia)));
    rewrite ?Nat.add_succ_r, ?Nat.add_0_r in *;
    first
      [ congruence
      | split; [reflexivity|];
        cbn [firstn nth app]; rewrite <- ?app_assoc; reflexivity ] ].

(** C4.  On an open descriptor whose status flags are a non-negative
    word, [socket_setup] makes the calls of its plan in order: [F_SETFD]
    with [FD_CLOEXEC]; [SO_NOSIGPIPE] where the system has it; [F_GETFL]
    and [F_SETFL] with [O_NONBLOCK] set or cleared.  When the kernel lets
    all of them through, it returns true, has made exactly these calls,
    and the descriptor is close-on-exec with its non-blocking flag equal
    to [non_block].  When call [j] of the plan is the first one the
    kernel makes fail, it returns false and has made the calls before
    [j], which went through, and call [j]: nothing after it, neither a
    later step nor a call that would undo an earlier one.  On a
    descriptor that is not open the first call fails and is the only one
    made. *)
Theorem socket_setup_steps sock (non_block : bool) k :
  let plan := setup_plan k sock non_block in
  let done := combine plan (setup_answers k sock) in
  let r := socket_setup sock non_block k in
  (fds k !! sock = None ->
   fst r = false /\
   trace (snd r) = trace k ++ [(F_SETFD sock FD_CLOEXEC, -1)]) /\
  (forall d,
     fds k !! sock = Some d -> 0 <= fl_flags d ->
     ((forall j, (j < List.length plan)%nat ->
                 fault k (List.length (trace k) + j) = false) ->
      fst r = true /\
      trace (snd r) = trace k ++ done /\
      is_cloexec (snd r) sock = true /\
      is_nonblocking (snd r) sock = non_block) /\
     (forall j, (j < List.length plan)%nat ->
        (forall i, (i < j)%nat ->
                   fault k (List.length (trace k) + i) = false) ->
        fault k (List.length (trace k) + j) = true ->
        fst r = false /\
        trace (snd r) =
          trace k ++ firstn j done ++
          [(nth j plan (F_SETFD sock FD_CLOEXEC), -1)])).
Proof.
  cbv zeta. split.
  - intros Hd.
    unfold socket_setup, fcntl_setfd, syscall, kbind, kret.
    rewrite Hd. split; reflexivity.
  - intros d Hd Hfl.
    destruct (socket_setup sock non_block k) as [r k'] eqn:E.
    unfold socket_setup, fcntl_setfd, setsockopt_nosigpipe, syscall, kbind,
      kret in E.
    unfold setup_plan, setup_answers, status_flags.
    rewrite Hd in E |- *. apply Z.ltb_ge in Hfl.
    destruct (fault k (List.length (trace k))) eqn:F0;
      [destruct HAVE_SO_NOSIGPIPE; setup_leaf E|].
    cbn [fds fault trace Z.ltb Z.compare] in E.
    destruct HAVE_SO_NOSIGPIPE.
    + cbn [fds fault trace] in E.
      rewrite lookup_insert_eq, length_app in E.
      cbn [List.length] in E.
      rewrite ?Nat.add_succ_r, ?Nat.add_0_r in E.
      destruct (fault k (S (List.length (trace k)))) eqn:F1;
        [setup_leaf E|].
      cbn [fds fault trace Z.ltb Z.compare] in E.
      rewrite set_nonblocking_run in E.
      cbn [fds fault trace fd_flags fl_flags so_nosigpipe] in E.
      rewrite lookup_insert_eq, !length_app in E.
      cbn [fds fault trace fd_flags fl_flags so_nosigpipe List.length] in E.
      rewrite ?Nat.add_succ_r, ?Nat.add_0_r, Hfl in E.
      destruct (fault k (S (S (List.length (trace k))))) eqn:F2;
        [setup_leaf E|].
      destruct (fault k (S (S (S (List.length (trace k)))))) eqn:F3;
        setup_leaf E.
    + rewrite set_nonblocking_run in E.
      cbn [fds fault trace fd_flags fl_flags so_nosigpipe] in E.
      rewrite lookup_insert_eq, !length_app in E.
      cbn [fds fault trace fd_flags fl_flags so_nosigpipe List.length] in E.
      rewrite ?Nat.add_succ_r, ?Nat.add_0_r, Hfl in E.
      destruct (fault k (S (List.length (trace k)))) eqn:F1;
        [setup_leaf E|].
      destruct (fault k (S (S (List.length (trace k))))) eqn:F2;
        setup_leaf E.
Qed.
(** ** More on the two helpers *)

Lemma lor_lor_same f x : Z.lor (Z.lor f x) x = Z.lor f x.
Proof. now rewrite <- Z.lor_assoc, Z.lor_diag. Qed.

Lemma land_land_same f x : Z.land (Z.land f x) x = Z.land f x.
Proof. now rewrite <- Z.land_assoc, Z.land_diag. Qed.

Lemma lor_land_lnot_same f x :
  Z.land (Z.lor f x) (Z.lnot x) = Z.land f (Z.lnot x).
Proof.
  bitwise. destruct (Z.testbit f n), (Z.testbit x n); reflexivity.
Qed.

(** The flag word [socket_set_nonblocking] computes. *)
Lemma new_flags_twice fl (non_block : bool) :
  (if non_block
   then Z.lor (if non_block then Z.lor fl O_NONBLOCK
               else Z.land fl (Z.lnot O_NONBLOCK)) O_NONBLOCK
   else Z.land (if non_block then Z.lor fl O_NONBLOCK
                else Z.land fl (Z.lnot O_NONBLOCK)) (Z.lnot O_NONBLOCK)) =
  if non_block then Z.lor fl O_NONBLOCK else Z.land fl (Z.lnot O_NONBLOCK).
Proof.
  destruct non_block; [apply lor_lor_same|apply land_land_same].
Qed.

Lemma new_flags_other_bits fl (non_block : bool) :
  Z.land (if non_block then Z.lor fl O_NONBLOCK
          else Z.land fl (Z.lnot O_NONBLOCK)) (Z.lnot O_NONBLOCK) =
  Z.land fl (Z.lnot O_NONBLOCK).
Proof.
  destruct non_block; [apply lor_land_lnot_same|apply land_land_same].
Qed.

(** X11.  Setting the same mode twice is setting it once: after a
    successful [socket_set_nonblocking(fd, b)], a second successful call
    with the same [b] leaves the table of descriptors as the first one
    left it. *)
Theorem set_nonblocking_idempotent fd (non_block : bool) k k1 k2 :
  socket_set_nonblocking fd non_block k = (true, k1) ->
  socket_set_nonblocking fd non_block k1 = (true, k2) ->
  fds k2 = fds k1.
Proof.
  intros H1 H2.
  destruct (set_nonblocking_true _ _ _ _ H1) as (d & Hd & _ & E1).
  destruct (set_nonblocking_true _ _ _ _ H2) as (d1 & Hd1 & _ & E2).
  rewrite E1, lookup_insert_eq in Hd1. injection Hd1 as <-.
  cbn [fd_flags fl_flags so_nosigpipe] in E2.
  rewrite E2, new_flags_twice, E1. apply insert_insert_eq.
Qed.

(** X12.  A successful [socket_set_nonblocking] changes one bit of the
    descriptor: its descriptor flags, its socket option and every status
    flag other than [O_NONBLOCK] are what they were, and the [O_NONBLOCK]
    flag is [non_block]. *)
Theorem set_nonblocking_changes_one_bit fd (non_block : bool) k k' :
  socket_set_nonblocking fd non_block k = (true, k') ->
  exists d d',
    fds k !! fd = Some d /\ fds k' !! fd = Some d' /\
    fd_flags d' = fd_flags d /\ so_nosigpipe d' = so_nosigpipe d /\
    Z.land (fl_flags d') (Z.lnot O_NONBLOCK) =
      Z.land (fl_flags d) (Z.lnot O_NONBLOCK) /\
    is_nonblocking k' fd = non_block.
Proof.
  intros H. destruct (set_nonblocking_true _ _ _ _ H) as (d & Hd & _ & E).
  exists d. eexists. split; [exact Hd|].
  split; [rewrite E; apply lookup_insert_eq|].
  cbn [fd_flags fl_flags so_nosigpipe].
  split; [reflexivity|]. split; [reflexivity|].
  split; [apply new_flags_other_bits|].
  unfold is_nonblocking. rewrite E, lookup_insert_eq.
  apply nonblock_bit.
Qed.

(** X13.  The two ways in which [socket_set_nonblocking] fails.  When the
    descriptor is not open or the kernel makes [F_GETFL] fail, it returns
    false after that one call: [F_SETFL] is not attempted.  When [F_GETFL]
    goes through with a non-negative word and the kernel makes [F_SETFL]
    fail, it returns false after these two calls, the second with the
    word read in which [O_NONBLOCK] is set or cleared. *)
Theorem set_nonblocking_failure fd (non_block : bool) k :
  (fds k !! fd = None \/ fault k (List.length (trace k)) = true ->
   fst (socket_set_nonblocking fd non_block k) = false /\
   trace (snd (socket_set_nonblocking fd non_block k)) =
     trace k ++ [(F_GETFL fd 0, -1)]) /\
  (forall d,
     fds k !! fd = Some d -> 0 <= fl_flags d ->
     fault k (List.length (trace k)) = false ->
     fault k (S (List.length (trace k))) = true ->
     fst (socket_set_nonblocking fd non_block k) = false /\
     trace (snd (socket_set_nonblocking fd non_block k)) =
       trace k ++
       [(F_GETFL fd 0, fl_flags d);
        (F_SETFL fd (if non_block then Z.lor (fl_flags d) O_NONBLOCK
                     else Z.land (fl_flags d) (Z.lnot O_NONBLOCK)), -1)]).
Proof.
  rewrite set_nonblocking_run. split.
  - intros [Hd|Hf].
    + rewrite Hd. split; reflexivity.
    + destruct (fds k !! fd); [rewrite Hf|]; split; reflexivity.
  - intros d Hd Hfl F0 F1. apply Z.ltb_ge in Hfl.
    rewrite Hd, F0, Hfl, F1. split; reflexivity.
Qed.

(** [socket_setup], when it returns true. *)
Lemma socket_setup_true sock (non_block : bool) k k' :
  socket_setup sock non_block k = (true, k') ->
  exists d,
    fds k !! sock = Some d /\ 0 <= fl_flags d /\
    fds k' =
      <[sock := mkFdesc FD_CLOEXEC
                  (if non_block then Z.lor (fl_flags d) O_NONBLOCK
                   else Z.land (fl_flags d) (Z.lnot O_NONBLOCK))
                  (if HAVE_SO_NOSIGPIPE then 1 else so_nosigpipe d)]>
        (fds k).
Proof.
  intros E.
  unfold socket_setup, fcntl_setfd, setsockopt_nosigpipe, syscall, kbind,
    kret in E.
  destruct (fds k !! sock) as [d|] eqn:Hd; [|discriminate E].
  destruct (fault k (List.length (trace k))); [discriminate E|].
  cbn [fds fault trace Z.ltb Z.compare] in E.
  exists d. split; [reflexivity|].
  destruct HAVE_SO_NOSIGPIPE.
  - cbn [fds fault trace] in E. rewrite lookup_insert_eq in E.
    destruct (fault k _); [discriminate E|].
    cbn [fds fault trace Z.ltb Z.compare fd_flags fl_flags so_nosigpipe] in E.
    destruct (socket_set_nonblocking sock non_block _) as [[|] k1] eqn:E1;
      [|discriminate E].
    cbn [negb] in E. injection E as <-.
    destruct (set_nonblocking_true _ _ _ _ E1) as (d1 & Hd1 & Hfl & ->).
    cbn [fds] in Hd1 |- *. rewrite lookup_insert_eq in Hd1.
    injection Hd1 as <-. cbn [fd_flags fl_flags so_nosigpipe] in *.
    split; [assumption|]. now rewrite !insert_insert_eq.
  - destruct (socket_set_nonblocking sock non_block _) as [[|] k1] eqn:E1;
      [|discriminate E].
    cbn [negb] in E. injection E as <-.
    destruct (set_nonblocking_true _ _ _ _ E1) as (d1 & Hd1 & Hfl & ->).
    cbn [fds] in Hd1 |- *. rewrite lookup_insert_eq in Hd1.
    injection Hd1 as <-. cbn [fd_flags fl_flags so_nosigpipe] in *.
    split; [assumption|]. now rewrite !insert_insert_eq.
Qed.

(** X14.  What a successful [socket_setup] leaves of the descriptor: it
    was open; its descriptor flags are [FD_CLOEXEC] and nothing else,
    whatever they were; its status flags are the former ones with
    [O_NONBLOCK] set or cleared; [SO_NOSIGPIPE] is 1 where the system has
    it and untouched elsewhere. *)
Theorem socket_setup_success sock (non_block : bool) k k' :
  socket_setup sock non_block k = (true, k') ->
  exists d,
    fds k !! sock = Some d /\
    fds k' !! sock =
      Some (mkFdesc FD_CLOEXEC
              (if non_block then Z.lor (fl_flags d) O_NONBLOCK
               else Z.land (fl_flags d) (Z.lnot O_NONBLOCK))
              (if HAVE_SO_NOSIGPIPE then 1 else so_nosigpipe d)).
Proof.
  intros E. destruct (socket_setup_true _ _ _ _ E) as (d & Hd & _ & ->).
  exists d. split; [exact Hd|apply lookup_insert_eq].
Qed.

(** X15.  [socket_setup] is idempotent: a second successful call with the
    same [non_block] leaves the table of descriptors as the first one left
    it. *)
Theorem socket_setup_idempotent sock (non_block : bool) k k1 k2 :
  socket_setup sock non_block k = (true, k1) ->
  socket_setup sock non_block k1 = (true, k2) ->
  fds k2 = fds k1.
Proof.
  intros H1 H2.
  destruct (socket_setup_true _ _ _ _ H1) as (d & Hd & _ & E1).
  destruct (socket_setup_true _ _ _ _ H2) as (d1 & Hd1 & _ & E2).
  rewrite E1, lookup_insert_eq in Hd1. injection Hd1 as <-.
  cbn [fd_flags fl_flags so_nosigpipe] in E2.
  rewrite E2, new_flags_twice, E1, insert_insert_eq.
  now destruct HAVE_SO_NOSIGPIPE.
Qed.

(** X16.  Switching a socket that [socket_setup] has made non-blocking back
    to blocking keeps the rest of the setup: after
    [socket_setup(sock, true)] and [socket_set_nonblocking(sock, false)],
    both successful, the descriptor is blocking and still close-on-exec,
    and its status flags are those it had before the setup with
    [O_NONBLOCK] cleared. *)
Theorem setup_then_blocking sock k k1 k2 :
  socket_setup sock true k = (true, k1) ->
  socket_set_nonblocking sock false k1 = (true, k2) ->
  is_nonblocking k2 sock = false /\ is_cloexec k2 sock = true /\
  status_flags k2 sock = Z.land (status_flags k sock) (Z.lnot O_NONBLOCK).
Proof.
  intros H1 H2.
  destruct (socket_setup_true _ _ _ _ H1) as (d & Hd & _ & E1).
  destruct (set_nonblocking_true _ _ _ _ H2) as (d1 & Hd1 & _ & E2).
  rewrite E1, lookup_insert_eq in Hd1. injection Hd1 as <-.
  cbn [fd_flags fl_flags so_nosigpipe] in E2.
  unfold is_nonblocking, is_cloexec, status_flags.
  rewrite E2, Hd, lookup_insert_eq. cbn [fd_flags fl_flags].
  split; [apply (nonblock_bit _ false)|].
  split; [apply cloexec_bit|apply lor_land_lnot_same].
Qed.

(** X18.  [socket_set_nonblocking] succeeds exactly when the descriptor is
    open, [F_GETFL] goes through and returns a non-negative word, and
    [F_SETFL] goes through; it then has made these two calls and no
    other, the second with the word read by the first in which only
    [O_NONBLOCK] is changed.  Whether it succeeds does not depend on
    [non_block]. *)
Theorem set_nonblocking_succeeds_iff fd (non_block : bool) k :
  (fst (socket_set_nonblocking fd non_block k) = true <->
   exists d,
     fds k !! fd = Some d /\ 0 <= fl_flags d /\
     fault k (List.length (trace k)) = false /\
     fault k (S (List.length (trace k))) = false) /\
  (fst (socket_set_nonblocking fd non_block k) = true ->
   exists fl,
     status_flags k fd = fl /\
     trace (snd (socket_set_nonblocking fd non_block k)) =
       trace k ++
       [(F_GETFL fd 0, fl);
        (F_SETFL fd (if non_block then Z.lor fl O_NONBLOCK
                     else Z.land fl (Z.lnot O_NONBLOCK)), 0)]).
Proof.
  rewrite set_nonblocking_run. unfold status_flags.
  destruct (fds k !! fd) as [d|].
  2: { split; [|discriminate]. split; [discriminate|].
       intros (d & Hd & _). discriminate Hd. }
  destruct (fault k (List.length (trace k))) eqn:F1.
  { split; [|discriminate]. split; [discriminate|].
    intros (d' & _ & _ & Hf & _). discriminate Hf. }
  destruct (fl_flags d <? 0) eqn:Hneg.
  { split; [|discriminate]. split; [discriminate|].
    intros (d' & Hd & Hfl & _). injection Hd as <-.
    apply Z.ltb_lt in Hneg. lia. }
  destruct (fault k (S (List.length (trace k)))) eqn:F2.
  { split; [|discriminate]. split; [discriminate|].
    intros (d' & _ & _ & _ & Hf). discriminate Hf. }
  split.
  - split; [|reflexivity]. intros _. exists d.
    apply Z.ltb_ge in Hneg. auto.
  - intros _. exists (fl_flags d). split; reflexivity.
Qed.

End Facts.

(** Descriptor 3 on Linux, nothing made to fail. *)
Lemma set_nonblocking_round_trip_witness :
  is_nonblocking (P := linux)
    (snd (socket_set_nonblocking (P := linux) 3 true example_kernel)) 3
  = true /\
  is_nonblocking (P := linux)
    (snd (socket_set_nonblocking (P := linux) 3 false
            (snd (socket_set_nonblocking (P := linux) 3 true
                    example_kernel)))) 3
  = false /\
  (is_nonblocking (P := linux) example_kernel 3 = false ->
   fds (snd (socket_set_nonblocking (P := linux) 3 false
               (snd (socket_set_nonblocking (P := linux) 3 true
                       example_kernel))))
   = fds example_kernel).
Proof.
  apply (set_nonblocking_round_trip (P := linux) 3 example_kernel).
  - vm_compute. reflexivity.
  - vm_compute. reflexivity.
Defined.

(** Descriptor 3 on Linux.  With nothing made to fail, [socket_setup]
    makes its three calls and returns true ([O_RDWR | O_NONBLOCK] is
    2050); with the second call made to fail, it returns false after
    [F_SETFD] and the failed [F_GETFL]. *)
Lemma socket_setup_steps_witness :
  (fst (socket_setup (P := linux) 3 true example_kernel) = true /\
   trace (snd (socket_setup (P := linux) 3 true example_kernel)) =
     [(F_SETFD 3 1, 0); (F_GETFL 3 0, 2); (F_SETFL 3 2050, 0)] /\
   is_cloexec (P := linux)
     (snd (socket_setup (P := linux) 3 true example_kernel)) 3 = true /\
   is_nonblocking (P := linux)
     (snd (socket_setup (P := linux) 3 true example_kernel)) 3 = true) /\
  (fst (socket_setup (P := linux) 3 true example_kernel_fault) = false /\
   trace (snd (socket_setup (P := linux) 3 true example_kernel_fault)) =
     [(F_SETFD 3 1, 0); (F_GETFL 3 0, -1)]).
Proof.
  split.
  - apply (proj1 (proj2 (socket_setup_steps (P := linux) 3 true
                           example_kernel)
                    (mkFdesc 0 2 0) ltac:(vm_compute; reflexivity)
                    ltac:(simpl; lia))).
    intros j _. reflexivity.
  - apply (proj2 (proj2 (socket_setup_steps (P := linux) 3 true
                           example_kernel_fault)
                    (mkFdesc 0 2 0) ltac:(vm_compute; reflexivity)
                    ltac:(simpl; lia))
             1%nat ltac:(simpl; lia)).
    + intros i Hi. replace i with 0%nat by lia. reflexivity.
    + reflexivity.
Defined.

(** [socket_setup] on macOS, which has [SO_NOSIGPIPE]: four calls. *)
Example socket_setup_darwin :
  fst (socket_setup (P := darwin) 3 true example_kernel) = true /\
  trace (snd (socket_setup (P := darwin) 3 true example_kernel)) =
    [(F_SETFD 3 1, 0); (SO_NOSIGPIPE 3 1, 0); (F_GETFL 3 0, 2);
     (F_SETFL 3 6, 0)] /\
  fds (snd (socket_setup (P := darwin) 3 true example_kernel)) !! 3 =
    Some (mkFdesc 1 6 1).
Proof. vm_compute. repeat split. Qed.


(** ** The further properties on descriptor 3 *)

(** Linux, nothing made to fail: making descriptor 3 non-blocking twice. *)
Lemma set_nonblocking_idempotent_witness :
  fds (snd (socket_set_nonblocking (P := linux) 3 true
              (snd (socket_set_nonblocking (P := linux) 3 true
                      example_kernel))))
  = fds (snd (socket_set_nonblocking (P := linux) 3 true example_kernel)).
Proof.
  apply (set_nonblocking_idempotent (P := linux) 3 true example_kernel).
  - vm_compute. reflexivity.
  - vm_compute. reflexivity.
Defined.

Lemma set_nonblocking_changes_one_bit_witness :
  let k' := snd (socket_set_nonblocking (P := linux) 3 true example_kernel) in
  exists d d',
    fds example_kernel !! 3 = Some d /\ fds k' !! 3 = Some d' /\
    fd_flags d' = fd_flags d /\ so_nosigpipe d' = so_nosigpipe d /\
    Z.land (fl_flags d') (Z.lnot (O_NONBLOCK (Platform := linux))) =
      Z.land (fl_flags d) (Z.lnot (O_NONBLOCK (Platform := linux))) /\
    is_nonblocking (P := linux) k' 3 = true.
Proof.
  apply (set_nonblocking_changes_one_bit (P := linux) 3 true example_kernel).
  vm_compute. reflexivity.
Defined.

(** Linux, with [F_SETFL] made to fail; [O_RDWR | O_NONBLOCK] is 2050. *)
Lemma set_nonblocking_failure_witness :
  fst (socket_set_nonblocking (P := linux) 3 true example_kernel_fault)
  = false /\
  trace (snd (socket_set_nonblocking (P := linux) 3 true
                example_kernel_fault)) =
    [(F_GETFL 3 0, 2); (F_SETFL 3 2050, -1)].
Proof.
  exact (proj2 (set_nonblocking_failure (P := linux) 3 true
                  example_kernel_fault)
           (mkFdesc 0 2 0) ltac:(vm_compute; reflexivity)
           ltac:(simpl; lia) eq_refl eq_refl).
Defined.

(** Linux, nothing made to fail. *)
Lemma socket_setup_success_witness :
  let k' := snd (socket_setup (P := linux) 3 true example_kernel) in
  exists d,
    fds example_kernel !! 3 = Some d /\
    fds k' !! 3 =
      Some (mkFdesc (FD_CLOEXEC (Platform := linux))
              (Z.lor (fl_flags d) (O_NONBLOCK (Platform := linux)))
              (so_nosigpipe d)).
Proof.
  apply (socket_setup_success (P := linux) 3 true example_kernel).
  vm_compute. reflexivity.
Defined.

Lemma socket_setup_idempotent_witness :
  fds (snd (socket_setup (P := darwin) 3 false
              (snd (socket_setup (P := darwin) 3 false example_kernel))))
  = fds (snd (socket_setup (P := darwin) 3 false example_kernel)).
Proof.
  apply (socket_setup_idempotent (P := darwin) 3 false example_kernel).
  - vm_compute. reflexivity.
  - vm_compute. reflexivity.
Defined.

Lemma setup_then_blocking_witness :
  let k2 := snd (socket_set_nonblocking (P := linux) 3 false
                   (snd (socket_setup (P := linux) 3 true example_kernel))) in
  is_nonblocking (P := linux) k2 3 = false /\
  is_cloexec (P := linux) k2 3 = true /\
  status_flags k2 3 =
    Z.land (status_flags example_kernel 3)
      (Z.lnot (O_NONBLOCK (Platform := linux))).
Proof.
  apply (setup_then_blocking (P := linux) 3 example_kernel
           (snd (socket_setup (P := linux) 3 true example_kernel))).
  - vm_compute. reflexivity.
  - vm_compute. reflexivity.
Defined.


(** Linux, nothing made to fail: the two calls of
    [socket_set_nonblocking]; [O_RDWR | O_NONBLOCK] is 2050. *)
Lemma set_nonblocking_succeeds_iff_witness :
  trace (snd (socket_set_nonblocking (P := linux) 3 true example_kernel)) =
  [(F_GETFL 3 0, 2); (F_SETFL 3 2050, 0)].
Proof.
  destruct (proj2 (set_nonblocking_succeeds_iff (P := linux) 3 true
                     example_kernel) ltac:(vm_compute; reflexivity))
    as (fl & Hfl & Ht).
  rewrite Ht, <- Hfl. reflexivity.
Defined.
End SocketFacts.
